(** * SyferText tokenizer: a shallow embedding of [syfertext/tokenizer.py]

    The development follows the source file top to bottom: Python values
    (strings, slices, integers, the exception dictionary), the [TokenMeta]
    record, the [Tokenizer] configuration with its three matchers, the helper
    methods that build token meta data, the affix stripping loop, the
    assembly of a run's spans and the whitespace driver of [__call__].
    Positions are Python integers, hence [Z]; the exception table is a
    dictionary, hence a [gmap]. *)

From Stdlib Require Import ZArith Lia Ascii String.
From stdpp Require Import base option list gmap strings pretty.

Local Open Scope Z_scope.

(** ** Python values *)

(** A Python [str] is a sequence of characters. *)
Abbreviation str := (list ascii).

(** A literal of the source language, for examples. *)
Definition py (s : string) : str := list_ascii_of_string s.

(** [len(s)] *)
Definition len {A} (s : list A) : Z := Z.of_nat (length s).

(** Python normalises a slice bound against the length of the sequence:
    a negative bound counts from the end, and every bound is clipped to
    [0 .. len]. *)
Definition clip (n i : Z) : Z :=
  if i <? 0 then Z.max 0 (i + n) else Z.min i n.

(** [s[lo:hi]], a bound left out ([None]) being the matching end of [s]. *)
Definition slice {A} (s : list A) (lo hi : option Z) : list A :=
  let n := len s in
  let a := match lo with Some i => clip n i | None => 0 end in
  let b := match hi with Some j => clip n j | None => n end in
  take (Z.to_nat (b - a)) (drop (Z.to_nat a) s).

(** The exceptions this part of the program can raise, and the outcome of a
    computation: a value, an exception, or a loop that used up the steps it
    was given ([OutOfFuel] stands for a [while] that is still running). *)
Inductive exn := IndexError | KeyError.

Inductive res (A : Type) :=
| Ret (a : A)
| Raise (e : exn)
| OutOfFuel.
Arguments Ret {A} a.
Arguments Raise {A} e.
Arguments OutOfFuel {A}.

#[global] Instance res_ret : MRet res := fun A a => Ret a.

#[global] Instance res_bind : MBind res := fun A B k m =>
  match m with
  | Ret a => k a
  | Raise e => Raise e
  | OutOfFuel => OutOfFuel
  end.

(** [s[i]] for an integer index: negative indices count from the end, an
    index out of range raises [IndexError]. *)
Definition index {A} (s : list A) (i : Z) : res A :=
  let j := if i <? 0 then i + len s else i in
  if j <? 0 then Raise IndexError
  else match s !! Z.to_nat j with
       | Some c => Ret c
       | None => Raise IndexError
       end.

(** [list.pop()]: the list without its last element, and that element. *)
Definition pop {A} (l : list A) : res (list A * A) :=
  match last l with
  | Some x => Ret (removelast l, x)
  | None => Raise IndexError
  end.

(** [c.isspace()] for a character, on the code points below 256: the ASCII
    white space 9-13 and 32, the separators 28-31, NEL (133) and the
    no-break space (160). *)
Definition isspace (c : ascii) : bool :=
  let k := Z.of_N (N_of_ascii c) in
  ((9 <=? k) && (k <=? 13)) || ((28 <=? k) && (k <=? 32))
  || (k =? 133) || (k =? 160).

(** Truth value of a Python integer. *)
Definition truthy (z : Z) : bool := negb (z =? 0).

(** Truth value of a Python sequence. *)
Definition nonempty {A} (l : list A) : bool :=
  match l with [] => false | _ => true end.

(** ** [class TokenMeta] *)

(** [end_pos] is [None] for the token that is open to the end of the text. *)
Record TokenMeta := mkTokenMeta {
  start_pos : Z;
  end_pos : option Z;
  space_after : bool;
  is_space : bool
}.

(** ** [class Tokenizer] *)

(** What the code reads of a [re.Match]: [start()] and [end()]. *)
Record Match := mkMatch { m_start : Z; m_end : Z }.

(** The configuration kept by [Tokenizer.__init__].  A matcher may be
    [None].  An entry of the exception table is a list of dictionaries of
    which the tokenizer reads the ["ORTH"] string only. *)
Record Tokenizer := mkTokenizer {
  prefix_search : option (str → option Match);
  suffix_search : option (str → option Match);
  infix_finditer : option (str → list Match);
  special_cases : gmap str (list str)
}.

(** [substring in self.special_cases] *)
Definition in_special (tk : Tokenizer) (substring : str) : bool :=
  bool_decide (is_Some (special_cases tk !! substring)).

(** [find_prefix]: the length of the prefix match, 0 without a matcher or a
    match. *)
Definition find_prefix (tk : Tokenizer) (s : str) : Z :=
  match prefix_search tk with
  | None => 0
  | Some search =>
      match search s with
      | Some m => m_end m - m_start m
      | None => 0
      end
  end.

Definition find_suffix (tk : Tokenizer) (s : str) : Z :=
  match suffix_search tk with
  | None => 0
  | Some search =>
      match search s with
      | Some m => m_end m - m_start m
      | None => 0
      end
  end.

(** [find_infix]: the list of the matches.  Without a matcher the source
    returns 0, which its only caller tests for truth exactly as it tests the
    empty list. *)
Definition find_infix (tk : Tokenizer) (s : str) : list Match :=
  match infix_finditer tk with
  | None => []
  | Some finditer => finditer s
  end.

(** The meta data every helper creates: [space_after] and [is_space] are
    [False] until the last token of the run is fixed up. *)
Definition plain (a b : Z) : TokenMeta := mkTokenMeta a (Some b) false false.

(** [_get_prefix_token_meta] *)
Definition _get_prefix_token_meta (tk : Tokenizer) (substring : str) (pos : Z)
  : option TokenMeta * str * Z :=
  let pre_len := find_prefix tk substring in
  if pre_len =? 0 then (None, substring, pos)
  else
    let end_pos := pos + pre_len - 1 in
    let token_meta := plain pos end_pos in
    (Some token_meta, slice substring (Some pre_len) None, end_pos + 1).

(** [_get_suffix_token_meta] *)
Definition _get_suffix_token_meta (tk : Tokenizer) (substring : str) (pos : Z)
  : option TokenMeta * str :=
  let suff_len := find_suffix tk substring in
  if suff_len =? 0 then (None, substring)
  else
    let pos_suffix := pos + len substring - suff_len in
    let end_pos_suffix := pos_suffix + suff_len - 1 in
    let token_meta := plain pos_suffix end_pos_suffix in
    (Some token_meta, slice substring None (Some (- suff_len))).

(** The variables of [_get_infix_token_meta] that its loop updates. *)
Record infix_state := mkInfix {
  ix_offset : Z;
  ix_pos : Z;
  ix_end_pos : Z;
  ix_metas : list TokenMeta
}.

(** A span for [piece] when it is not empty: the body shared by the two
    [if substring[..]:] blocks inside the loop. *)
Definition emit_piece (piece : str) (st : infix_state) : infix_state :=
  if nonempty piece then
    let end_pos := ix_pos st + len piece - 1 in
    mkInfix (ix_offset st) (end_pos + 1) end_pos
            (ix_metas st ++ [plain (ix_pos st) end_pos])
  else st.

(** One turn of [for match in infixes]. *)
Definition infix_step (substring : str) (st : infix_state) (m : Match)
  : infix_state :=
  let st1 :=
    emit_piece (slice substring (Some (ix_offset st)) (Some (m_start m))) st in
  let st2 :=
    emit_piece (slice substring (Some (m_start m)) (Some (m_end m))) st1 in
  mkInfix (m_end m) (ix_pos st2) (ix_end_pos st2) (ix_metas st2).

Definition infix_loop (substring : str) (st : infix_state) (ms : list Match)
  : infix_state :=
  fold_left (infix_step substring) ms st.

(** The block after the loop: the text left after the last match.  Its
    position is recomputed from [end_pos]. *)
Definition infix_rest (substring : str) (st : infix_state) : infix_state :=
  let piece := slice substring (Some (ix_offset st)) None in
  if nonempty piece then
    let pos := ix_end_pos st + 1 in
    let end_pos := pos + len piece - 1 in
    mkInfix (ix_offset st) (end_pos + 1) end_pos
            (ix_metas st ++ [plain pos end_pos])
  else st.

(** The body of [_get_infix_token_meta] for a given list of matches. *)
Definition infix_spans (substring : str) (pos : Z) (ms : list Match)
  : list TokenMeta :=
  ix_metas (infix_rest substring (infix_loop substring (mkInfix 0 pos 0 []) ms)).

(** [_get_infix_token_meta] *)
Definition _get_infix_token_meta (tk : Tokenizer) (substring : str) (pos : Z)
  : list TokenMeta :=
  infix_spans substring pos (find_infix tk substring).

(** The loop of [_get_special_cases_token_meta] over the entry. *)
Fixpoint special_spans (orths : list str) (pos : Z) : list TokenMeta :=
  match orths with
  | [] => []
  | ORTH :: rest =>
      let end_pos := pos + len ORTH - 1 in
      plain pos end_pos :: special_spans rest (end_pos + 1)
  end.

(** [_get_special_cases_token_meta]; the subscript raises [KeyError] on a
    string that is not a key. *)
Definition _get_special_cases_token_meta (tk : Tokenizer) (substring : str)
    (pos : Z) : res (list TokenMeta) :=
  match special_cases tk !! substring with
  | Some orths => Ret (special_spans orths pos)
  | None => Raise KeyError
  end.

(** ** [_split_affixes] *)

(** The variables the [while] loop of [_split_affixes] updates. *)
Record affix_state := mkAffix {
  af_substring : str;
  af_pos : Z;
  af_prefixes : list TokenMeta;
  af_suffixes : list TokenMeta
}.

(** [if token_meta: l.append(token_meta)] *)
Definition append_if (l : list TokenMeta) (t : option TokenMeta)
  : list TokenMeta :=
  match t with Some x => l ++ [x] | None => l end.

(** How one turn of the loop body ends. *)
Inductive turn := Break (st : affix_state) | Continue (st : affix_state).

(** [if self.find_prefix(substring): ...], up to its test of the exception
    table. *)
Definition strip_prefix (tk : Tokenizer) (st : affix_state) : affix_state :=
  if truthy (find_prefix tk (af_substring st)) then
    let '(token_meta, substring, pos) :=
      _get_prefix_token_meta tk (af_substring st) (af_pos st) in
    mkAffix substring pos (append_if (af_prefixes st) token_meta)
            (af_suffixes st)
  else st.

(** [if self.find_suffix(substring): ...] *)
Definition strip_suffix (tk : Tokenizer) (st : affix_state) : affix_state :=
  if truthy (find_suffix tk (af_substring st)) then
    let '(token_meta, substring) :=
      _get_suffix_token_meta tk (af_substring st) (af_pos st) in
    mkAffix substring (af_pos st) (af_prefixes st)
            (append_if (af_suffixes st) token_meta)
  else st.

(** The body of the [while] loop. *)
Definition affix_body (tk : Tokenizer) (st : affix_state) : turn :=
  if in_special tk (af_substring st) then Break st
  else
    let st1 := strip_prefix tk st in
    if truthy (find_prefix tk (af_substring st))
       && in_special tk (af_substring st1)
    then Break st1
    else Continue (strip_suffix tk st1).

(** [while self.find_prefix(substring) or self.find_suffix(substring)],
    run for at most [fuel] evaluations of its condition. *)
Fixpoint affix_loop (tk : Tokenizer) (fuel : nat) (st : affix_state)
  : res affix_state :=
  match fuel with
  | O => OutOfFuel
  | S fuel' =>
      if truthy (find_prefix tk (af_substring st))
         || truthy (find_suffix tk (af_substring st))
      then match affix_body tk st with
           | Break st' => Ret st'
           | Continue st' => affix_loop tk fuel' st'
           end
      else Ret st
  end.

(** What [_split_affixes] returns. *)
Record split := mkSplit {
  sp_substring : str;
  sp_pos : Z;
  sp_prefixes : list TokenMeta;
  sp_suffixes : list TokenMeta;
  sp_infixes : list TokenMeta;
  sp_special_tokens : list TokenMeta
}.

(** The end of [_split_affixes], from the state its loop ended in: the
    exception table first, then the infixes. *)
Definition resolve (tk : Tokenizer) (st : affix_state) : res split :=
  if in_special tk (af_substring st) then
    special_tokens ←
      _get_special_cases_token_meta tk (af_substring st) (af_pos st);
    mret (mkSplit [] (af_pos st) (af_prefixes st) (af_suffixes st) []
                  special_tokens)
  else if nonempty (find_infix tk (af_substring st)) then
    mret (mkSplit [] (af_pos st) (af_prefixes st) (af_suffixes st)
                  (_get_infix_token_meta tk (af_substring st) (af_pos st)) [])
  else
    mret (mkSplit (af_substring st) (af_pos st) (af_prefixes st)
                  (af_suffixes st) [] []).

Definition _split_affixes (tk : Tokenizer) (fuel : nat) (substring : str)
    (start_pos : Z) : res split :=
  if nonempty substring then
    st ← affix_loop tk fuel (mkAffix substring start_pos [] []);
    resolve tk st
  else mret (mkSplit substring start_pos [] [] [] []).

(** ** [_attach_tokens] *)

(** The span of what is left of the run, when something is left. *)
Definition core_span (substring : str) (start_pos : Z) : list TokenMeta :=
  if nonempty substring then
    [plain start_pos (start_pos + len substring - 1)]
  else [].

(** The spans of a run in the order [_attach_tokens] extends the container
    with them. *)
Definition run_spans (sp : split) : list TokenMeta :=
  sp_prefixes sp ++ sp_special_tokens sp
  ++ core_span (sp_substring sp) (sp_pos sp)
  ++ sp_infixes sp ++ reverse (sp_suffixes sp).

(** [last_token_meta.space_after = space_after] *)
Definition set_space_after (t : TokenMeta) (b : bool) : TokenMeta :=
  mkTokenMeta (start_pos t) (end_pos t) b (is_space t).

(** A document is modelled by its container.  Every [TokenMeta] object is
    referenced from one place of one container, so the assignment to the
    popped object is the replacement of that element. *)
Definition _attach_tokens (doc : list TokenMeta) (sp : split)
    (space_after : bool) : res (list TokenMeta) :=
  let container := doc ++ run_spans sp in
  '(container, last_token_meta) ← pop container;
  mret (container ++ [set_space_after last_token_meta space_after]).

(** ** [_tokenize] *)

Definition _tokenize (tk : Tokenizer) (fuel : nat) (substring : str)
    (token_meta : TokenMeta) (doc : list TokenMeta) : res (list TokenMeta) :=
  sp ← _split_affixes tk fuel substring (start_pos token_meta);
  _attach_tokens doc sp (space_after token_meta).

(** ** [__call__] *)

(** The variables the scan of [__call__] updates. *)
Record scan := mkScan {
  sc_pos : Z;
  sc_is_space : bool;
  sc_doc : list TokenMeta
}.

(** A finished token: white space is appended as it is, anything else goes
    through [_tokenize]. *)
Definition finish (tk : Tokenizer) (fuel : nat) (span : str)
    (token_meta : TokenMeta) (doc : list TokenMeta) : res (list TokenMeta) :=
  if is_space token_meta then mret (doc ++ [token_meta])
  else _tokenize tk fuel span token_meta doc.

(** The first [if] of the loop body: the character at [i] ends the token
    that started at [pos]. *)
Definition close_token (tk : Tokenizer) (fuel : nat) (text : str)
    (st : scan) (i : Z) (is_current_space : bool) : res scan :=
  if negb (eqb is_current_space (sc_is_space st)) then
    let token_meta :=
      mkTokenMeta (sc_pos st) (Some (i - 1)) is_current_space
                  (sc_is_space st) in
    doc ← finish tk fuel (slice text (Some (sc_pos st)) (Some i)) token_meta
                 (sc_doc st);
    let pos := if is_current_space then i + 1 else i in
    is_space ←
      (if pos <? len text then c ← index text pos; mret (isspace c)
       else mret (sc_is_space st));
    mret (mkScan pos is_space doc)
  else mret st.

(** The second [if]: the last token, at the last character. *)
Definition last_token (tk : Tokenizer) (fuel : nat) (text : str)
    (st : scan) (i : Z) (is_current_space : bool) : res scan :=
  if (i =? len text - 1) && (sc_pos st <=? i) then
    let token_meta :=
      mkTokenMeta (sc_pos st) None is_current_space (sc_is_space st) in
    doc ← finish tk fuel (slice text (Some (sc_pos st)) None) token_meta
                 (sc_doc st);
    mret (mkScan (sc_pos st) (sc_is_space st) doc)
  else mret st.

(** [for i, char in enumerate(text)], from index [i] on. *)
Fixpoint scan_loop (tk : Tokenizer) (fuel : nat) (text : str) (i : Z)
    (rest : str) (st : scan) : res scan :=
  match rest with
  | [] => mret st
  | char :: rest' =>
      let is_current_space := isspace char in
      st1 ← close_token tk fuel text st i is_current_space;
      st2 ← last_token tk fuel text st1 i is_current_space;
      scan_loop tk fuel text (i + 1) rest' st2
  end.

(** [Tokenizer.__call__] on a text, up to the document it builds; [fuel]
    bounds each run of the affix loop. *)
Definition call (tk : Tokenizer) (fuel : nat) (text : str)
  : res (list TokenMeta) :=
  c ← index text 0;
  st ← scan_loop tk fuel text 0 text (mkScan 0 (isspace c) []);
  mret (sc_doc st).

(** ** Reading a document back *)

(** The substring a span denotes: [text[start_pos : end_pos + 1]], and
    [text[start_pos:]] for the open end. *)
Definition span_text (text : str) (t : TokenMeta) : str :=
  slice text (Some (start_pos t)) (Z.succ <$> end_pos t).



(** The front of the denoted text together with the character that
    [space_after] stands for: the one character after [end_pos], when the
    flag is set and the span has an end. *)
Definition space_text (text : str) (t : TokenMeta) : str :=
  if space_after t then
    match end_pos t with
    | Some e => slice text (Some (e + 1)) (Some (e + 2))
    | None => []
    end
  else [].

Definition text_with_ws (text : str) (t : TokenMeta) : str :=
  span_text text t ++ space_text text t.

(** 1 for [True], 0 for [False]. *)
Definition int (b : bool) : Z := if b then 1 else 0.

(** ** Layout of spans *)

(** [tiles a l b]: the spans of [l], all made by [plain], lie end to end
    from position [a] up to (not including) [b]. *)
Inductive tiles : Z → list TokenMeta → Z → Prop :=
| tiles_nil a : tiles a [] a
| tiles_cons a e l b :
    a ≤ e + 1 → tiles (e + 1) l b → tiles a (plain a e :: l) b.

(** [covers n a l b]: the spans of [l] lie in order from [a] up to [b] in a
    text of [n] characters, a span with [space_after] being followed by one
    character that belongs to no span; only the last span may be open. *)
Inductive covers (n : Z) : Z → list TokenMeta → Z → Prop :=
| covers_nil a : covers n a [] a
| covers_cons a t e l b :
    start_pos t = a → end_pos t = Some e → a ≤ e + 1 →
    covers n (e + 1 + int (space_after t)) l b →
    covers n a (t :: l) b
| covers_open a t :
    start_pos t = a → end_pos t = None → a ≤ n → covers n a [t] n.

(** ** Well-formed configurations *)

(** A match lies inside the string that was searched. *)
Definition within (s : str) (m : Match) : Prop :=
  0 ≤ m_start m ∧ m_start m ≤ m_end m ∧ m_end m ≤ len s.

(** Matches in the order [finditer] yields them: left to right without
    overlap. *)
Fixpoint ordered (lo : Z) (ms : list Match) : Prop :=
  match ms with
  | [] => True
  | m :: ms' => lo ≤ m_start m ∧ m_start m ≤ m_end m ∧ ordered (m_end m) ms'
  end.

(** The matches of an infix search of [s]: ordered, inside [s], and, when
    [s] is not empty, not all of them the empty match at position 0. *)
Definition infix_ok (s : str) (ms : list Match) : Prop :=
  ordered 0 ms ∧ Forall (within s) ms
  ∧ (ms ≠ [] → s ≠ [] → Exists (fun m => 0 < m_end m) ms).

(** The sum of the lengths of the sub-tokens of an entry. *)
Definition orth_total (orths : list str) : Z :=
  foldr (fun o acc => len o + acc) 0 orths.

(** Every match of a prefix or suffix matcher lies inside the string it was
    given, as the matches of [re.search] do. *)
Definition search_ok (search : option (str → option Match)) : Prop :=
  ∀ f s m, search = Some f → f s = Some m → within s m.

Record wf_config (tk : Tokenizer) : Prop := {
  wf_prefix : search_ok (prefix_search tk);
  wf_suffix : search_ok (suffix_search tk);
  wf_infix : ∀ s, infix_ok s (find_infix tk s);
  wf_special : ∀ s orths,
    special_cases tk !! s = Some orths → orth_total orths = len s
}.

(** ** What the claims speak of *)

(** The substrings the spans denote, one after the other. *)
Definition substrings (text : str) (doc : list TokenMeta) : str :=
  concat (map (span_text text) doc).

(** The same with the character each [space_after] stands for. *)
Definition reconstruct (text : str) (doc : list TokenMeta) : str :=
  concat (map (text_with_ws text) doc).

(** The end of a span, the open end being the last index of the text. *)
Definition effective_end (text : str) (t : TokenMeta) : Z :=
  match end_pos t with Some e => e | None => len text - 1 end.

(** Contiguity of a document as the specification words it: every span
    ends right before the next one starts, the first one starts at 0 and the
    last one ends at the last index. *)
Definition contiguous (text : str) (doc : list TokenMeta) : Prop :=
  (∀ i t u, doc !! i = Some t → doc !! S i = Some u →
            ∃ e, end_pos t = Some e ∧ e + 1 = start_pos u)
  ∧ (∀ t, head doc = Some t → start_pos t = 0)
  ∧ (∀ t, last doc = Some t → effective_end text t = len text - 1).

(** Contiguity up to the characters that [space_after] stands for. *)
Definition contiguous_ws (text : str) (doc : list TokenMeta) : Prop :=
  (∀ i t u, doc !! i = Some t → doc !! S i = Some u →
            ∃ e, end_pos t = Some e
                 ∧ e + 1 + int (space_after t) = start_pos u)
  ∧ (∀ t, head doc = Some t → start_pos t = 0)
  ∧ (∀ t, last doc = Some t →
          effective_end text t
          + match end_pos t with
            | Some _ => int (space_after t)
            | None => 0
            end = len text - 1).

(** The three outcomes of a run that the assembly tells apart, and how many
    of them are not empty. *)
Definition groups (sp : split) : nat :=
  Nat.b2n (nonempty (sp_special_tokens sp))
  + Nat.b2n (nonempty (core_span (sp_substring sp) (sp_pos sp)))
  + Nat.b2n (nonempty (sp_infixes sp)).

(** A search whose matches of length 0 are turned into no match. *)
Definition skip_empty (search : str → option Match) (s : str)
  : option Match :=
  match search s with
  | Some m => if m_end m - m_start m =? 0 then None else Some m
  | None => None
  end.

(** The tokenizer whose prefix and suffix matchers never report an empty
    match. *)
Definition ignore_empty_affix (tk : Tokenizer) : Tokenizer :=
  mkTokenizer (skip_empty <$> prefix_search tk)
              (skip_empty <$> suffix_search tk)
              (infix_finditer tk) (special_cases tk).

(** The tokenizer whose infix matcher never reports an empty match. *)
Definition ignore_empty_infix (tk : Tokenizer) : Tokenizer :=
  mkTokenizer (prefix_search tk) (suffix_search tk)
              ((fun finditer s =>
                  filter (fun m => m_start m ≠ m_end m) (finditer s))
               <$> infix_finditer tk)
              (special_cases tk).

(** ** Configurations for the examples *)

(** A tokenizer without matchers and exceptions. *)
Definition bare : Tokenizer := mkTokenizer None None None ∅.

(** [re.compile(r"^\(").search] *)
Definition search_open (s : str) : option Match :=
  match s with
  | c :: _ => if Ascii.eqb c "("%char then Some (mkMatch 0 1) else None
  | [] => None
  end.

(** [re.compile(r"\)$").search] *)
Definition search_close (s : str) : option Match :=
  match last s with
  | Some c =>
      if Ascii.eqb c ")"%char then Some (mkMatch (len s - 1) (len s))
      else None
  | None => None
  end.

(** [re.compile(r"-").finditer], counting positions from [i]. *)
Fixpoint hyphens (i : Z) (s : str) : list Match :=
  match s with
  | [] => []
  | c :: s' =>
      (if Ascii.eqb c "-"%char then [mkMatch i (i + 1)] else [])
      ++ hyphens (i + 1) s'
  end.

(** Brackets as affixes, the hyphen as infix, two exceptions. *)
Definition demo : Tokenizer :=
  mkTokenizer (Some search_open) (Some search_close) (Some (hyphens 0))
              (<[ py "(c)" := [py "(c)"] ]>
                 {[ py "don't" := [py "do"; py "n't"] ]}).

(** The search of a pattern that matches the empty string at the start of
    every string, as the empty pattern does. *)
Definition search_nothing (s : str) : option Match := Some (mkMatch 0 0).

(** An opening bracket as prefix and a suffix pattern that only ever matches
    the empty string. *)
Definition degenerate : Tokenizer :=
  mkTokenizer (Some search_open) (Some search_nothing) None ∅.

(** An exception whose sub-tokens are shorter than its key. *)
Definition mismatch : Tokenizer :=
  mkTokenizer None None None {[ py "ab" := [py "a"] ]}.

(** [re.compile(r"(?<=.)(?=.)").finditer]: the empty match between any two
    characters. *)
Definition between_chars (s : str) : list Match :=
  map (fun k => mkMatch (Z.of_nat k) (Z.of_nat k)) (seq 1 (length s - 1)).

Definition between : Tokenizer :=
  mkTokenizer None None (Some between_chars) ∅.

(** ** Loop invariants *)

(** What the loop of [_get_infix_token_meta] keeps true when the matches
    are ordered and inside the string: the spans made so far tile the text
    before offset [off]. *)
Definition infix_at (pos0 off : Z) (st : infix_state) : Prop :=
  0 ≤ off
  ∧ ix_pos st = pos0 + off
  ∧ tiles pos0 (ix_metas st) (ix_pos st)
  ∧ (ix_metas st = [] → off = 0)
  ∧ (ix_metas st ≠ [] → ix_end_pos st = ix_pos st - 1).

Definition infix_inv (pos0 : Z) (st : infix_state) : Prop :=
  infix_at pos0 (ix_offset st) st.

(** The prefixes tile the text before [pos], the suffixes, read backwards,
    the text after the substring; [p0] and [m] are the start and the length
    of the run. *)
Definition affix_inv (p0 m : Z) (st : affix_state) : Prop :=
  tiles p0 (af_prefixes st) (af_pos st)
  ∧ tiles (af_pos st + len (af_substring st)) (reverse (af_suffixes st))
          (p0 + m).

(** The white space spans that have an end have [space_after] unset. *)
Definition ws_flags (doc : list TokenMeta) : Prop :=
  Forall (fun t => is_space t = true → end_pos t ≠ None
                   → space_after t = false) doc.

(** What the scan of [__call__] keeps true before it visits index [i]: the
    document covers the text before [pos], and [is_space] is the class of
    the character at [pos]. *)
Definition scan_inv (text : str) (i : Z) (st : scan) : Prop :=
  0 ≤ sc_pos st ∧ sc_pos st ≤ i
  ∧ covers (len text) 0 (sc_doc st) (sc_pos st)
  ∧ (∀ c, text !! Z.to_nat (sc_pos st) = Some c → sc_is_space st = isspace c)
  ∧ ws_flags (sc_doc st).

(** ** Further notions about spans *)

(** A span that holds at least one character. *)
Definition span_nonempty (t : TokenMeta) : Prop :=
  match end_pos t with
  | Some e => start_pos t ≤ e
  | None => True
  end.

(** No sub-token of an exception entry is the empty string. *)
Definition orths_nonempty (tk : Tokenizer) : Prop :=
  ∀ s orths, special_cases tk !! s = Some orths →
             Forall (fun o => o ≠ []) orths.

(** The characters of [text] at the indices from [a] up to (not including)
    [b] all have the white space class [cls]. *)
Definition all_class (text : str) (a b : Z) (cls : bool) : Prop :=
  ∀ j c, a ≤ j → j < b → text !! Z.to_nat j = Some c → isspace c = cls.

(** What the scan of [__call__] keeps true of [pos] and [is_space] before it
    visits index [i], whatever the configuration: the characters since
    [pos] have the class [is_space], and so has the one at [pos]. *)
Definition class_inv (text : str) (i : Z) (st : scan) : Prop :=
  0 ≤ sc_pos st ∧ sc_pos st ≤ i
  ∧ all_class text (sc_pos st) i (sc_is_space st)
  ∧ (∀ c, text !! Z.to_nat (sc_pos st) = Some c → sc_is_space st = isspace c).

(** The substring an affix loop works on is the text between its position
    and the suffixes it has stripped, inside the run from [p0] to [b]. *)
Definition in_sync (text : str) (p0 b : Z) (st : affix_state) : Prop :=
  af_substring st
  = slice text (Some (af_pos st))
          (Some (af_pos st + len (af_substring st)))
  ∧ p0 ≤ af_pos st
  ∧ af_pos st + len (af_substring st) ≤ b.

(** ** [attrs.py] *)

(** The names on the left of the assignment in [class Attributes], in
    their order. *)
Definition attribute_names : list string :=
  ([
    "NULL_ATTR"; "ID"; "ORTH"; "LOWER"; "NORM"; "SHAPE"; "PREFIX"; "SUFFIX";
    "LENGTH"; "LANG"; "IS_ALPHA"; "IS_ASCII"; "IS_DIGIT"; "IS_LOWER";
    "IS_PUNCT"; "IS_SPACE"; "IS_TITLE"; "IS_UPPER"; "LIKE_URL"; "LIKE_NUM";
    "LIKE_EMAIL"; "IS_STOP"; "IS_OOV"; "IS_BRACKET"; "IS_QUOTE";
    "IS_LEFT_PUNCT"; "IS_RIGHT_PUNCT"; "IS_CURRENCY"; "Flag28"; "Flag29";
    "Flag30"; "Flag31"; "Flag32"; "Flag33"; "Flag34"; "Flag35"; "Flag36";
    "Flag37"; "Flag38"; "Flag39"; "Flag40"; "Flag41"; "Flag42"; "Flag43";
    "Flag44"; "Flag45"; "Flag46"; "Flag47"; "Flag48"; "Flag49"; "Flag50";
    "Flag51"; "Flag52"; "Flag53"; "Flag54"; "Flag55"; "Flag56"; "Flag57";
    "Flag58"; "Flag59"; "Flag60"; "Flag61"; "Flag62"; "Flag63"; "Flag64";
    "Flag65"; "Flag66"; "Flag67"; "Flag68"
  ])%string.

(** [range(n)] *)
Definition range (n : nat) : list Z := Z.of_nat <$> seq 0 n.

(** The names bound to the values from left to right, a name bound twice
    keeping the later value. *)
Definition bind_names (names : list string) (values : list Z)
  : gmap string Z :=
  foldl (fun m kv => <[kv.1 := kv.2]> m) ∅ (zip names values).

(** [(n1, ..., nk) = values] in a class body: as many values as names are
    needed (Python raises [ValueError] otherwise, here [None]). *)
Definition unpack (names : list string) (values : list Z)
  : option (gmap string Z) :=
  if decide (length names = length values) then
    Some (bind_names names values)
  else None.

(** The attributes of [class Attributes]. *)
Definition Attributes : option (gmap string Z) :=
  unpack attribute_names (range 69).

(** No entry of the exception table is the empty list. *)
Definition entries_nonempty (tk : Tokenizer) : Prop :=
  ∀ s orths, special_cases tk !! s = Some orths → orths ≠ [].

(** An exception whose entry has no sub-token at all. *)
Definition empty_entry : Tokenizer :=
  mkTokenizer None None None {[ py "x" := [] ]}.

(** ** Slices *)

Lemma clip_range (n i : Z) : 0 ≤ n → 0 ≤ clip n i ∧ clip n i ≤ n.
Proof. intros Hn. unfold clip. destruct (i <? 0) eqn:E; lia. Qed.

Lemma clip_id (n i : Z) : 0 ≤ i → i ≤ n → clip n i = i.
Proof. intros H1 H2. unfold clip. destruct (i <? 0) eqn:E; lia. Qed.

Section slices.
Context {A : Type}.
Implicit Types s t : list A.

Lemma len_nonneg s : 0 ≤ len s.
Proof. unfold len. lia. Qed.

Lemma len_app s t : len (s ++ t) = len s + len t.
Proof. unfold len. rewrite length_app. lia. Qed.

Lemma nonempty_len s : nonempty s = true ↔ 0 < len s.
Proof. destruct s; unfold len; simpl; split; intros; try done; lia. Qed.

Lemma nonempty_false_len s : nonempty s = false ↔ len s = 0.
Proof. destruct s; unfold len; simpl; split; intros; try done; lia. Qed.

Lemma len_slice s (a b : Z) :
  len (slice s (Some a) (Some b))
  = Z.max 0 (clip (len s) b - clip (len s) a).
Proof.
  pose proof (clip_range (len s) a (len_nonneg s)).
  pose proof (clip_range (len s) b (len_nonneg s)).
  unfold slice, len in *. rewrite length_take, length_drop. lia.
Qed.

Lemma len_slice_from s (a : Z) :
  len (slice s (Some a) None) = len s - clip (len s) a.
Proof.
  pose proof (clip_range (len s) a (len_nonneg s)).
  unfold slice, len in *. rewrite length_take, length_drop. lia.
Qed.

Lemma len_slice_to s (b : Z) :
  len (slice s None (Some b)) = clip (len s) b.
Proof.
  pose proof (clip_range (len s) b (len_nonneg s)).
  unfold slice, len in *. rewrite length_take, length_drop. simpl. lia.
Qed.

(** Inside the text a slice is the usual [take] of a [drop]. *)
Lemma slice_inside s (a b : Z) :
  0 ≤ a → a ≤ b → b ≤ len s →
  slice s (Some a) (Some b) = take (Z.to_nat (b - a)) (drop (Z.to_nat a) s).
Proof.
  intros H1 H2 H3. unfold slice. rewrite !clip_id by lia. reflexivity.
Qed.

Lemma slice_from_inside s (a : Z) :
  0 ≤ a → a ≤ len s → slice s (Some a) None = drop (Z.to_nat a) s.
Proof.
  intros H1 H2. unfold slice. rewrite clip_id by lia.
  apply take_ge. rewrite length_drop. unfold len in *. lia.
Qed.

(** Two neighbouring slices make one. *)
Lemma slice_join s (a b c : Z) :
  0 ≤ a → a ≤ b → b ≤ c → c ≤ len s →
  slice s (Some a) (Some b) ++ slice s (Some b) (Some c)
  = slice s (Some a) (Some c).
Proof.
  intros H1 H2 H3 H4. rewrite !slice_inside by lia.
  replace (Z.to_nat b) with (Z.to_nat a + Z.to_nat (b - a))%nat by lia.
  rewrite <- drop_drop.
  replace (Z.to_nat (c - a)) with (Z.to_nat (b - a) + Z.to_nat (c - b))%nat
    by lia.
  apply take_take_drop.
Qed.

Lemma slice_join_open s (a b : Z) :
  0 ≤ a → a ≤ b → b ≤ len s →
  slice s (Some a) (Some b) ++ slice s (Some b) None = slice s (Some a) None.
Proof.
  intros H1 H2 H3. rewrite slice_inside, !slice_from_inside by lia.
  replace (Z.to_nat b) with (Z.to_nat a + Z.to_nat (b - a))%nat by lia.
  rewrite <- drop_drop. apply take_drop.
Qed.

Lemma slice_all s : slice s (Some 0) None = s.
Proof. rewrite slice_from_inside; [done | lia | apply len_nonneg]. Qed.

Lemma slice_to_end s (a : Z) :
  0 ≤ a → a ≤ len s → slice s (Some a) (Some (len s)) = slice s (Some a) None.
Proof.
  intros H1 H2. rewrite slice_inside, slice_from_inside by lia.
  apply take_ge. rewrite length_drop. unfold len in *. lia.
Qed.

End slices.

(** ** Spans laid end to end *)

Lemma tiles_le a l b : tiles a l b → a ≤ b.
Proof. induction 1; lia. Qed.

Lemma tiles_app a l1 b l2 c :
  tiles a l1 b → tiles b l2 c → tiles a (l1 ++ l2) c.
Proof.
  induction 1 as [|a e l b Hle Hl IH]; intros H2; simpl; [done|].
  constructor; auto.
Qed.

Lemma tiles_one a e : a ≤ e + 1 → tiles a [plain a e] (e + 1).
Proof. intros. constructor; [done | constructor]. Qed.

Lemma tiles_cast a l b a' b' :
  tiles a l b → a = a' → b = b' → tiles a' l b'.
Proof. by intros ? -> ->. Qed.

Lemma tiles_cons_eq a a' e l b :
  a = a' → a ≤ e + 1 → tiles (e + 1) l b → tiles a (plain a' e :: l) b.
Proof. intros <-. by constructor. Qed.

Lemma tiles_snoc a l b e :
  tiles a l b → b ≤ e + 1 → tiles a (l ++ [plain b e]) (e + 1).
Proof. intros. eapply tiles_app; [eassumption | by apply tiles_one]. Qed.

Lemma tiles_nonempty a l b : tiles a l b → a < b → l ≠ [].
Proof. intros H Hlt. inversion H; subst; [lia | done]. Qed.

Lemma tiles_plain a l b :
  tiles a l b →
  Forall (fun t => is_space t = false ∧ space_after t = false
                   ∧ end_pos t ≠ None) l.
Proof. induction 1; constructor; auto. Qed.

(** ** Exception entries *)

Lemma special_spans_tiles orths pos :
  tiles pos (special_spans orths pos) (pos + orth_total orths).
Proof.
  revert pos. induction orths as [|o orths IH]; intros pos; simpl.
  - replace (pos + 0) with pos by lia. constructor.
  - pose proof (len_nonneg o). constructor; [lia|].
    replace (pos + (len o + orth_total orths))
      with (pos + len o - 1 + 1 + orth_total orths) by lia.
    apply IH.
Qed.

Lemma special_spans_length orths pos :
  length (special_spans orths pos) = length orths.
Proof. revert pos. induction orths; intros; simpl; auto. Qed.

(** ** The infix splitter *)

Lemma tiles_snoc_eq a l b e c :
  tiles a l b → b ≤ e + 1 → c = e + 1 → tiles a (l ++ [plain b e]) c.
Proof. intros ? ? ->. by apply tiles_snoc. Qed.

Lemma emit_piece_at pos0 off piece st :
  infix_at pos0 off st → infix_at pos0 (off + len piece) (emit_piece piece st).
Proof.
  intros (H0 & Hpos & Ht & Hnil & Hend).
  pose proof (len_nonneg piece) as Hp.
  unfold emit_piece. destruct (nonempty piece) eqn:E.
  - apply nonempty_len in E. unfold infix_at; simpl.
    repeat split; try lia.
    + eapply tiles_snoc_eq; [eassumption | lia | lia].
    + intros Habs. by apply app_eq_nil in Habs as [_ ?].
  - apply nonempty_false_len in E. rewrite E.
    replace (off + 0) with off by lia. by repeat split.
Qed.

Lemma emit_piece_offset piece st :
  ix_offset (emit_piece piece st) = ix_offset st.
Proof. unfold emit_piece. by destruct (nonempty piece). Qed.

Lemma infix_step_inv s pos0 st m :
  infix_inv pos0 st → ix_offset st ≤ m_start m → within s m →
  infix_inv pos0 (infix_step s st m)
  ∧ ix_offset (infix_step s st m) = m_end m.
Proof.
  intros Hinv Hlo (Hs0 & Hse & Hen).
  assert (H0 : 0 ≤ ix_offset st) by apply Hinv.
  split; [|done]. unfold infix_inv, infix_step; simpl.
  pose proof (len_slice s (ix_offset st) (m_start m)) as L1.
  pose proof (len_slice s (m_start m) (m_end m)) as L2.
  rewrite !clip_id in L1, L2 by lia.
  apply (emit_piece_at _ _
           (slice s (Some (ix_offset st)) (Some (m_start m)))) in Hinv.
  apply (emit_piece_at _ _
           (slice s (Some (m_start m)) (Some (m_end m)))) in Hinv.
  replace (ix_offset st + len (slice s (Some (ix_offset st)) (Some (m_start m)))
           + len (slice s (Some (m_start m)) (Some (m_end m))))
    with (m_end m) in Hinv by lia.
  exact Hinv.
Qed.

Lemma infix_loop_mono s ms : ∀ st,
  ordered (ix_offset st) ms →
  ix_offset st ≤ ix_offset (infix_loop s st ms).
Proof.
  induction ms as [|m ms IH]; intros st Ho; simpl; [lia|].
  destruct Ho as (? & ? & Ho).
  specialize (IH (infix_step s st m) Ho). simpl in IH. lia.
Qed.

Lemma infix_loop_inv s pos0 ms : ∀ st,
  infix_inv pos0 st → ix_offset st ≤ len s →
  ordered (ix_offset st) ms → Forall (within s) ms →
  infix_inv pos0 (infix_loop s st ms)
  ∧ ix_offset (infix_loop s st ms) ≤ len s
  ∧ Forall (fun m => m_end m ≤ ix_offset (infix_loop s st ms)) ms.
Proof.
  induction ms as [|m ms IH]; intros st Hinv Hlen Hord Hin; simpl.
  - auto.
  - destruct Hord as (Hlo & Hse & Hord).
    apply Forall_cons in Hin as [Hm Hin].
    destruct (infix_step_inv s pos0 st m Hinv Hlo Hm) as [Hinv' Hoff].
    assert (Hlen' : ix_offset (infix_step s st m) ≤ len s).
    { rewrite Hoff. apply Hm. }
    assert (Hord' : ordered (ix_offset (infix_step s st m)) ms).
    { by rewrite Hoff. }
    destruct (IH _ Hinv' Hlen' Hord' Hin) as (Hi & Hl & Hall).
    split; [done|]. split; [done|].
    constructor; [|done].
    pose proof (infix_loop_mono s ms _ Hord') as Hmono.
    rewrite Hoff in Hmono. exact Hmono.
Qed.

(** With well-formed matches the spans of the infix splitter tile the
    whole string. *)
Lemma infix_spans_tiles s pos ms :
  infix_ok s ms → ms ≠ [] →
  tiles pos (infix_spans s pos ms) (pos + len s).
Proof.
  intros (Hord & Hin & Hex) Hne. unfold infix_spans.
  destruct (infix_loop_inv s pos ms (mkInfix 0 pos 0 [])) as (Hi & Hl & Hall);
    simpl; auto.
  { unfold infix_inv, infix_at; simpl.
    repeat split; try lia; try done. constructor. }
  { apply len_nonneg. }
  set (st := infix_loop s (mkInfix 0 pos 0 []) ms) in *.
  destruct Hi as (H0 & Hpos & Ht & Hnil & Hend).
  unfold infix_rest.
  pose proof (len_slice_from s (ix_offset st)) as L.
  rewrite clip_id in L by lia.
  destruct (nonempty (slice s (Some (ix_offset st)) None)) eqn:E; simpl.
  - apply nonempty_len in E.
    assert (Hs : s ≠ []).
    { intros ->. unfold len in *; simpl in *; lia. }
    specialize (Hex Hne Hs).
    assert (Hoff : 0 < ix_offset st).
    { apply Exists_exists in Hex as (m & Hm & Hpos').
      rewrite Forall_forall in Hall. specialize (Hall m Hm). lia. }
    assert (Hmetas : ix_metas st ≠ []).
    { intros Hn. specialize (Hnil Hn). lia. }
    rewrite (Hend Hmetas).
    replace (ix_pos st - 1 + 1) with (ix_pos st) by lia.
    eapply tiles_snoc_eq; [eassumption | lia | lia].
  - apply nonempty_false_len in E.
    replace (pos + len s) with (ix_pos st) by lia. done.
Qed.

(** ** The affix loop *)

Lemma find_prefix_range tk s :
  search_ok (prefix_search tk) →
  0 ≤ find_prefix tk s ∧ find_prefix tk s ≤ len s.
Proof.
  intros Hok. unfold find_prefix. pose proof (len_nonneg s).
  destruct (prefix_search tk) as [f|] eqn:E; [|lia].
  destruct (f s) as [m|] eqn:Em; [|lia].
  destruct (Hok f s m eq_refl Em) as (? & ? & ?). lia.
Qed.

Lemma find_suffix_range tk s :
  search_ok (suffix_search tk) →
  0 ≤ find_suffix tk s ∧ find_suffix tk s ≤ len s.
Proof.
  intros Hok. unfold find_suffix. pose proof (len_nonneg s).
  destruct (suffix_search tk) as [f|] eqn:E; [|lia].
  destruct (f s) as [m|] eqn:Em; [|lia].
  destruct (Hok f s m eq_refl Em) as (? & ? & ?). lia.
Qed.

Lemma truthy_true z : truthy z = true ↔ z ≠ 0.
Proof. unfold truthy. destruct (z =? 0) eqn:E; simpl; split; intros; try done; lia. Qed.

Lemma truthy_false z : truthy z = false ↔ z = 0.
Proof. unfold truthy. destruct (z =? 0) eqn:E; simpl; split; intros; try done; lia. Qed.

Lemma strip_prefix_spec tk p0 m st :
  search_ok (prefix_search tk) → affix_inv p0 m st →
  affix_inv p0 m (strip_prefix tk st)
  ∧ af_suffixes (strip_prefix tk st) = af_suffixes st
  ∧ len (af_substring (strip_prefix tk st))
    = len (af_substring st) - find_prefix tk (af_substring st).
Proof.
  intros Hok [Hp Hs]. unfold strip_prefix, _get_prefix_token_meta.
  destruct (find_prefix_range tk (af_substring st) Hok) as [H0 Hn].
  destruct (truthy (find_prefix tk (af_substring st))) eqn:E.
  - apply truthy_true in E.
    destruct (find_prefix tk (af_substring st) =? 0) eqn:E0; [lia|].
    unfold affix_inv; simpl. rewrite !len_slice_from, !clip_id by lia.
    repeat split; try lia.
    + eapply tiles_snoc_eq; [eassumption | lia | lia].
    + eapply tiles_cast; [eassumption | lia | lia].
  - apply truthy_false in E. rewrite E.
    repeat split; try done. lia.
Qed.

Lemma strip_suffix_spec tk p0 m st :
  search_ok (suffix_search tk) → affix_inv p0 m st →
  affix_inv p0 m (strip_suffix tk st)
  ∧ af_prefixes (strip_suffix tk st) = af_prefixes st
  ∧ af_pos (strip_suffix tk st) = af_pos st
  ∧ len (af_substring (strip_suffix tk st))
    = len (af_substring st) - find_suffix tk (af_substring st).
Proof.
  intros Hok [Hp Hs]. unfold strip_suffix, _get_suffix_token_meta.
  destruct (find_suffix_range tk (af_substring st) Hok) as [H0 Hn].
  destruct (truthy (find_suffix tk (af_substring st))) eqn:E.
  - apply truthy_true in E.
    destruct (find_suffix tk (af_substring st) =? 0) eqn:E0; [lia|].
    assert (Hc : clip (len (af_substring st))
                      (- find_suffix tk (af_substring st))
                 = len (af_substring st) - find_suffix tk (af_substring st)).
    { unfold clip.
      destruct (- find_suffix tk (af_substring st) <? 0) eqn:E1; lia. }
    unfold affix_inv; simpl. rewrite !len_slice_to, !Hc.
    repeat split; try lia; [done|].
    rewrite reverse_app. simpl.
    eapply tiles_cast; [| | reflexivity].
    { eapply tiles_cons_eq;
        [reflexivity | | eapply tiles_cast; [eassumption | | reflexivity] ];
        lia. }
    lia.
  - apply truthy_false in E. rewrite E.
    repeat split; try done. lia.
Qed.

(** A turn of the loop keeps the invariant, and a turn that goes on has
    stripped at least one character. *)
Lemma affix_body_spec tk p0 m st :
  search_ok (prefix_search tk) → search_ok (suffix_search tk) →
  affix_inv p0 m st →
  truthy (find_prefix tk (af_substring st))
  || truthy (find_suffix tk (af_substring st)) = true →
  match affix_body tk st with
  | Break st' =>
      affix_inv p0 m st' ∧ len (af_substring st') ≤ len (af_substring st)
  | Continue st' =>
      affix_inv p0 m st' ∧ len (af_substring st') < len (af_substring st)
  end.
Proof.
  intros Hpre Hsuf Hinv Hcond. unfold affix_body.
  destruct (in_special tk (af_substring st)); [split; [done | lia]|].
  destruct (strip_prefix_spec tk p0 m st Hpre Hinv) as (Hinv1 & _ & Hlen1).
  destruct (find_prefix_range tk (af_substring st) Hpre) as [Hp0 _].
  destruct (truthy (find_prefix tk (af_substring st))
            && in_special tk (af_substring (strip_prefix tk st))) eqn:Eb.
  - split; [done | lia].
  - destruct (strip_suffix_spec tk p0 m _ Hsuf Hinv1)
      as (Hinv2 & _ & _ & Hlen2).
    split; [done|].
    destruct (find_suffix_range tk (af_substring (strip_prefix tk st)) Hsuf)
      as [Hs0 _].
    destruct (truthy (find_prefix tk (af_substring st))) eqn:Ep.
    + apply truthy_true in Ep. lia.
    + simpl in Hcond. apply truthy_true in Hcond.
      assert (Hsame : strip_prefix tk st = st).
      { unfold strip_prefix. by rewrite Ep. }
      rewrite Hsame in *. lia.
Qed.

(** The loop ends within [len substring + 1] evaluations of its condition. *)
Lemma affix_loop_ok tk p0 m :
  search_ok (prefix_search tk) → search_ok (suffix_search tk) →
  ∀ fuel st,
    len (af_substring st) < Z.of_nat fuel → affix_inv p0 m st →
    ∃ st', affix_loop tk fuel st = Ret st' ∧ affix_inv p0 m st'
           ∧ len (af_substring st') ≤ len (af_substring st).
Proof.
  intros Hpre Hsuf. induction fuel as [|fuel IH]; intros st Hlt Hinv.
  - pose proof (len_nonneg (af_substring st)). lia.
  - simpl.
    destruct (truthy (find_prefix tk (af_substring st))
              || truthy (find_suffix tk (af_substring st))) eqn:Ec.
    + pose proof (affix_body_spec tk p0 m st Hpre Hsuf Hinv Ec) as Hb.
      destruct (affix_body tk st) as [st'|st'].
      * exists st'. by destruct Hb.
      * destruct Hb as [Hinv' Hlt'].
        destruct (IH st') as (st'' & Hr & Hi & Hl); [lia | done |].
        exists st''. split; [done | split; [done | lia] ].
    + exists st. split; [done | split; [done | lia] ].
Qed.

(** ** The spans of a run *)

Lemma core_span_tiles s pos : tiles pos (core_span s pos) (pos + len s).
Proof.
  unfold core_span. destruct (nonempty s) eqn:E.
  - apply nonempty_len in E.
    eapply tiles_cast; [apply tiles_one | reflexivity |]; lia.
  - apply nonempty_false_len in E. rewrite E.
    eapply tiles_cast; [apply tiles_nil | reflexivity | lia].
Qed.

Lemma in_special_true tk s :
  in_special tk s = true ↔ ∃ orths, special_cases tk !! s = Some orths.
Proof. unfold in_special. rewrite bool_decide_eq_true. reflexivity. Qed.

Lemma in_special_false tk s :
  in_special tk s = false ↔ special_cases tk !! s = None.
Proof.
  unfold in_special. rewrite bool_decide_eq_false.
  rewrite <- eq_None_not_Some. reflexivity.
Qed.

Lemma split_affixes_unfold tk fuel s p0 :
  s ≠ [] →
  _split_affixes tk fuel s p0
  = affix_loop tk fuel (mkAffix s p0 [] []) ≫= resolve tk.
Proof. intros Hs. unfold _split_affixes. destruct s; [done|]. reflexivity. Qed.

Lemma resolve_tiles tk p0 m st :
  wf_config tk → affix_inv p0 m st →
  ∃ sp, resolve tk st = Ret sp ∧ tiles p0 (run_spans sp) (p0 + m).
Proof.
  intros Hwf [Hp Hs]. unfold resolve.
  destruct (in_special tk (af_substring st)) eqn:Ek.
  - apply in_special_true in Ek as [orths Ho].
    unfold _get_special_cases_token_meta. rewrite Ho. simpl.
    eexists; split; [reflexivity|]. unfold run_spans; simpl.
    eapply tiles_app; [eassumption|].
    eapply tiles_app; [|eassumption].
    eapply tiles_cast; [apply special_spans_tiles | reflexivity |].
    rewrite (wf_special tk Hwf _ _ Ho). reflexivity.
  - destruct (nonempty (find_infix tk (af_substring st))) eqn:Ei.
    + eexists; split; [reflexivity|]. unfold run_spans; simpl.
      eapply tiles_app; [eassumption|].
      eapply tiles_app; [|eassumption].
      unfold _get_infix_token_meta. apply infix_spans_tiles.
      * apply (wf_infix tk Hwf).
      * intros Hn. by rewrite Hn in Ei.
    + eexists; split; [reflexivity|]. unfold run_spans; simpl.
      eapply tiles_app; [eassumption|].
      eapply tiles_app; [apply core_span_tiles | eassumption].
Qed.

Lemma split_affixes_ok tk fuel s p0 :
  wf_config tk → s ≠ [] → len s < Z.of_nat fuel →
  ∃ sp, _split_affixes tk fuel s p0 = Ret sp
        ∧ tiles p0 (run_spans sp) (p0 + len s).
Proof.
  intros Hwf Hs Hfuel. rewrite split_affixes_unfold by done.
  destruct (affix_loop_ok tk p0 (len s) (wf_prefix tk Hwf) (wf_suffix tk Hwf)
              fuel (mkAffix s p0 [] [])) as (st & Hr & Hinv & _).
  { done. }
  { split; simpl; constructor. }
  rewrite Hr. simpl. by apply resolve_tiles.
Qed.

(** ** Popping and fixing the last span *)

Lemma pop_snoc {A} (l : list A) (x : A) : pop (l ++ [x]) = Ret (l, x).
Proof. unfold pop. by rewrite last_snoc, removelast_last. Qed.

Lemma attach_tokens_snoc doc sp front t b :
  run_spans sp = front ++ [t] →
  _attach_tokens doc sp b = Ret (doc ++ front ++ [set_space_after t b]).
Proof.
  intros Hrun. unfold _attach_tokens. rewrite Hrun, app_assoc, pop_snoc.
  simpl. by rewrite <- app_assoc.
Qed.

Lemma tiles_snoc_inv a l b :
  tiles a l b → l ≠ [] →
  ∃ front c e, l = front ++ [plain c e] ∧ tiles a front c
               ∧ c ≤ e + 1 ∧ b = e + 1.
Proof.
  induction 1 as [|a e l b Hle Hl IH]; intros Hne; [done|].
  destruct l as [|t l].
  - inversion Hl; subst. exists [], a, e. repeat split; [constructor | done].
  - destruct IH as (front & c & e' & Heq & Ht & Hc & Hb); [done|].
    exists (plain a e :: front), c, e'. rewrite Heq.
    repeat split; [by constructor | done | done].
Qed.

(** ** Spans in a document *)

Lemma int_range b : 0 ≤ int b ∧ int b ≤ 1.
Proof. destruct b; simpl; lia. Qed.

Lemma covers_le n a l b : covers n a l b → a ≤ b.
Proof. induction 1 as [| a t e l b _ _ Hle _ IH |]; [lia | | lia].
  pose proof (int_range (space_after t)). lia. Qed.

Lemma covers_cast n a l b a' b' :
  covers n a l b → a = a' → b = b' → covers n a' l b'.
Proof. by intros ? -> ->. Qed.

Lemma covers_of_tiles n a l b : tiles a l b → covers n a l b.
Proof.
  induction 1 as [|a e l b Hle Hl IH]; [constructor|].
  eapply covers_cons; [reflexivity | reflexivity | done |].
  simpl. eapply covers_cast; [eassumption | lia | reflexivity].
Qed.

(** A list that stops before the end of the text has no open span. *)
Lemma covers_closed n a l b :
  covers n a l b → b < n → Forall (fun t => end_pos t ≠ None) l.
Proof.
  induction 1 as [| a t e l b _ He _ _ IH |]; intros Hlt.
  - constructor.
  - constructor; [by rewrite He | auto].
  - lia.
Qed.

Lemma covers_app n a l1 b l2 c :
  covers n a l1 b → Forall (fun t => end_pos t ≠ None) l1 →
  covers n b l2 c → covers n a (l1 ++ l2) c.
Proof.
  induction 1 as [| a t e l b Hs He Hle Hl IH | a t Hs He Hle];
    intros Hcl H2; simpl.
  - done.
  - apply Forall_cons in Hcl as [_ Hcl].
    eapply covers_cons; eauto.
  - apply Forall_cons in Hcl as [Hcl _]. done.
Qed.

(** A non-empty run handed to [_tokenize] adds its spans to the document:
    they lie from the start of the run to its end, the last one carrying
    the [space_after] of the run. *)
Lemma tokenize_ok tk fuel s tm doc n :
  wf_config tk → s ≠ [] → len s < Z.of_nat fuel →
  ∃ l, _tokenize tk fuel s tm doc = Ret (doc ++ l)
       ∧ covers n (start_pos tm) l
                (start_pos tm + len s + int (space_after tm))
       ∧ Forall (fun t => is_space t = false ∧ end_pos t ≠ None) l.
Proof.
  intros Hwf Hs Hfuel. unfold _tokenize.
  destruct (split_affixes_ok tk fuel s (start_pos tm) Hwf Hs Hfuel)
    as (sp & Hsp & Ht).
  rewrite Hsp. simpl.
  assert (Hpos : 0 < len s).
  { destruct s; [done|]. unfold len; simpl; lia. }
  destruct (tiles_snoc_inv _ _ _ Ht) as (front & c & e & Heq & Hf & Hc & Hb).
  { eapply tiles_nonempty; [eassumption | lia]. }
  rewrite (attach_tokens_snoc doc sp front (plain c e) _ Heq).
  exists (front ++ [set_space_after (plain c e) (space_after tm)]).
  split; [done|]. split.
  - eapply covers_app.
    + apply covers_of_tiles. eassumption.
    + eapply Forall_impl; [apply (tiles_plain _ _ _ Hf)|].
      simpl. intros t (_ & _ & ?). done.
    + eapply covers_cons; [reflexivity | reflexivity | done |]. simpl.
      eapply covers_cast; [apply covers_nil | reflexivity | lia].
  - apply Forall_app. split.
    + eapply Forall_impl; [apply (tiles_plain _ _ _ Hf)|].
      simpl. intros t (? & _ & ?). done.
    + constructor; [|constructor]. simpl. done.
Qed.

(** ** The scan of [__call__] *)

Lemma index_lookup {A} (s : list A) (j : Z) (c : A) :
  0 ≤ j → s !! Z.to_nat j = Some c → index s j = Ret c.
Proof.
  intros Hj Hc. unfold index.
  destruct (j <? 0) eqn:E; [lia|]. rewrite E. by rewrite Hc.
Qed.

Lemma lookup_inside {A} (s : list A) (j : Z) :
  0 ≤ j → j < len s → ∃ c, s !! Z.to_nat j = Some c.
Proof.
  intros H0 Hlt. apply lookup_lt_is_Some_2. unfold len in Hlt. lia.
Qed.

Lemma ws_flags_app doc l :
  ws_flags doc → ws_flags l → ws_flags (doc ++ l).
Proof. unfold ws_flags. intros. by apply Forall_app. Qed.

Lemma ws_flags_plain l :
  Forall (fun t => is_space t = false ∧ end_pos t ≠ None) l → ws_flags l.
Proof.
  unfold ws_flags. intros H. eapply Forall_impl; [exact H|].
  simpl. intros t [Hs _] Hsp. congruence.
Qed.

(** The tokenizer is well formed and the loop is given more steps than
    the text has characters. *)
Section scan.
Variables (tk : Tokenizer) (fuel : nat) (text : str).
Hypothesis Hwf : wf_config tk.
Hypothesis Hfuel : len text < Z.of_nat fuel.

(** The first [if] of the loop body. *)
Lemma close_token_ok st i c :
  0 ≤ i → text !! Z.to_nat i = Some c → scan_inv text i st →
  ∃ st1, close_token tk fuel text st i (isspace c) = Ret st1
         ∧ scan_inv text (i + 1) st1
         ∧ (sc_pos st1 ≤ i → sc_is_space st1 = isspace c).
Proof.
  intros Hi Hc (Hp0 & Hpi & Hcov & Hcls & Hws).
  assert (Hin : i < len text).
  { apply lookup_lt_Some in Hc. unfold len. lia. }
  unfold close_token.
  destruct (eqb (isspace c) (sc_is_space st)) eqn:Eq; simpl.
  - apply eqb_prop in Eq. exists st. split; [done|].
    split; [|done]. repeat split; try done; lia.
  - apply eqb_false_iff in Eq.
    assert (Hlt : sc_pos st < i).
    { destruct (decide (sc_pos st = i)) as [He|]; [|lia].
      rewrite <- He in Hc. specialize (Hcls c Hc). congruence. }
    assert (Hclosed : Forall (fun t => end_pos t ≠ None) (sc_doc st)).
    { eapply covers_closed; [eassumption | lia]. }
    unfold finish; simpl.
    destruct (sc_is_space st) eqn:Es.
    + (* a run of white space ends at a character that is not white space *)
      assert (Hics : isspace c = false) by (destruct (isspace c); done).
      rewrite Hics. simpl.
      destruct (i <? len text) eqn:El; [|lia].
      destruct (lookup_inside text i Hi Hin) as [c' Hc'].
      rewrite (index_lookup _ _ _ Hi Hc'). simpl.
      eexists; split; [reflexivity|]. simpl.
      split; [|intros _; congruence].
      repeat split; simpl; try lia.
      * eapply covers_app; [eassumption | done |].
        eapply covers_cons; [reflexivity | reflexivity | simpl; lia |].
        simpl. eapply covers_cast; [apply covers_nil | reflexivity | lia].
      * intros c0 Hc0. congruence.
      * apply ws_flags_app; [done|]. constructor; [|constructor]. done.
    + (* a run of other characters ends at a white space character *)
      assert (Hics : isspace c = true) by (destruct (isspace c); done).
      rewrite Hics.
      set (run := slice text (Some (sc_pos st)) (Some i)).
      assert (Hrun : len run = i - sc_pos st).
      { unfold run. rewrite len_slice, !clip_id by lia. lia. }
      clearbody run.
      destruct (tokenize_ok tk fuel run
                  (mkTokenMeta (sc_pos st) (Some (i - 1)) true false)
                  (sc_doc st) (len text) Hwf)
        as (l & Hl & Hcl & Hfl).
      { intros Hn. rewrite Hn in Hrun. unfold len in *; simpl in Hrun. lia. }
      { lia. }
      rewrite Hl. simpl.
      assert (Hnext :
        ∃ b, (if i + 1 <? len text
              then index text (i + 1) ≫= (fun c0 => mret (isspace c0))
              else mret false) = Ret b
             ∧ ∀ c0, text !! Z.to_nat (i + 1) = Some c0 → b = isspace c0).
      { destruct (i + 1 <? len text) eqn:El.
        - destruct (lookup_inside text (i + 1)) as [c' Hc']; [lia | lia |].
          assert (Hi1 : 0 ≤ i + 1) by lia.
          rewrite (index_lookup _ _ _ Hi1 Hc'). simpl.
          eexists; split; [reflexivity|]. intros c0 Hc0. congruence.
        - exists false. split; [done|]. intros c0 Hc0.
          apply lookup_lt_Some in Hc0. unfold len in *. lia. }
      destruct Hnext as (b & Hb & Hbc). rewrite Hb. simpl.
      eexists; split; [reflexivity|]. simpl.
      split; [|intros; lia].
      repeat split; simpl; try lia.
      * eapply covers_app; [eassumption | done |].
        eapply covers_cast; [exact Hcl | reflexivity | simpl; lia].
      * done.
      * apply ws_flags_app; [done | by apply ws_flags_plain].
Qed.

(** The second [if] of the loop body, at the last character. *)
Lemma last_token_ok st i b :
  i = len text - 1 → scan_inv text (i + 1) st →
  (sc_pos st ≤ i → sc_is_space st = b) →
  ∃ st2, last_token tk fuel text st i b = Ret st2
         ∧ covers (len text) 0 (sc_doc st2) (len text)
         ∧ ws_flags (sc_doc st2).
Proof.
  intros Hi (Hp0 & Hpi & Hcov & Hcls & Hws) Hb.
  unfold last_token. rewrite (proj2 (Z.eqb_eq i (len text - 1)) Hi). simpl.
  destruct (sc_pos st <=? i) eqn:El.
  - apply Z.leb_le in El. specialize (Hb El). subst b.
    assert (Hclosed : Forall (fun t => end_pos t ≠ None) (sc_doc st)).
    { eapply covers_closed; [eassumption | lia]. }
    unfold finish; simpl.
    destruct (sc_is_space st) eqn:Es; simpl.
    + eexists; split; [reflexivity|]. simpl. split.
      * eapply covers_app; [eassumption | done |].
        apply covers_open; simpl; [done | done | lia].
      * apply ws_flags_app; [done|]. constructor; [|constructor]. done.
    + set (run := slice text (Some (sc_pos st)) None).
      assert (Hrun : len run = len text - sc_pos st).
      { unfold run. rewrite len_slice_from, clip_id by lia. lia. }
      clearbody run.
      destruct (tokenize_ok tk fuel run
                  (mkTokenMeta (sc_pos st) None false false)
                  (sc_doc st) (len text) Hwf)
        as (l & Hl & Hcl & Hfl).
      { intros Hn. rewrite Hn in Hrun. unfold len in *; simpl in Hrun. lia. }
      { pose proof (len_nonneg run). lia. }
      rewrite Hl. simpl.
      eexists; split; [reflexivity|]. simpl. split.
      * eapply covers_app; [eassumption | done |].
        eapply covers_cast; [exact Hcl | reflexivity | simpl; lia].
      * apply ws_flags_app; [done | by apply ws_flags_plain].
  - apply Z.leb_gt in El. exists st. split; [done|]. split; [|done].
    eapply covers_cast; [eassumption | reflexivity | lia].
Qed.

Lemma last_token_skip st i b :
  i ≠ len text - 1 → last_token tk fuel text st i b = Ret st.
Proof.
  intros Hi. unfold last_token.
  destruct (i =? len text - 1) eqn:E; [lia | done].
Qed.

(** The loop over the characters, from any index on. *)
Lemma scan_loop_ok :
  ∀ rest i st,
    0 ≤ i → rest ≠ [] → drop (Z.to_nat i) text = rest →
    scan_inv text i st →
    ∃ st', scan_loop tk fuel text i rest st = Ret st'
           ∧ covers (len text) 0 (sc_doc st') (len text)
           ∧ ws_flags (sc_doc st').
Proof.
  induction rest as [|c rest IH]; intros i st Hi Hne Hd Hinv; [done|].
  assert (Hc : text !! Z.to_nat i = Some c).
  { transitivity (drop (Z.to_nat i) text !! 0%nat).
    - rewrite lookup_drop. f_equal. lia.
    - by rewrite Hd. }
  assert (Hlen : len text = i + 1 + len rest).
  { pose proof (length_drop text (Z.to_nat i)) as Hl. rewrite Hd in Hl.
    apply lookup_lt_Some in Hc. unfold len. simpl in Hl. lia. }
  assert (Hd' : drop (Z.to_nat (i + 1)) text = rest).
  { replace (Z.to_nat (i + 1)) with (Z.to_nat i + 1)%nat by lia.
    rewrite <- drop_drop, Hd. done. }
  simpl.
  destruct (close_token_ok st i c Hi Hc Hinv) as (st1 & H1 & Hinv1 & Hsp1).
  rewrite H1. simpl.
  destruct rest as [|c' rest].
  - assert (Hlast : i = len text - 1).
    { unfold len in Hlen; simpl in Hlen. unfold len. lia. }
    destruct (last_token_ok st1 i (isspace c) Hlast Hinv1 Hsp1)
      as (st2 & H2 & Hcov & Hws).
    rewrite H2. simpl. exists st2. done.
  - rewrite last_token_skip.
    2:{ unfold len in *; simpl in *. lia. }
    simpl. apply IH; [lia | done | done | done].
Qed.

(** On a text that is not empty [__call__] returns a document whose spans
    cover the text. *)
Lemma call_ok :
  text ≠ [] →
  ∃ doc, call tk fuel text = Ret doc
         ∧ covers (len text) 0 doc (len text) ∧ ws_flags doc.
Proof.
  intros Hne. unfold call.
  destruct (lookup_inside text 0) as [c0 H0]; [lia | |].
  { destruct text eqn:Et; [done|]. unfold len; simpl; lia. }
  rewrite (index_lookup _ _ _ (Z.le_refl 0) H0). simpl.
  destruct (scan_loop_ok text 0 (mkScan 0 (isspace c0) []))
    as (st & Hst & Hcov & Hws).
  - lia.
  - done.
  - done.
  - repeat split; simpl; try lia.
    + constructor.
    + intros c Hc. congruence.
    + constructor.
  - rewrite Hst. simpl. exists (sc_doc st). done.
Qed.

End scan.

(** ** Reading the text back from a covering document *)

Lemma slice_empty {A} (s : list A) (a : Z) : slice s (Some a) (Some a) = [].
Proof. unfold slice. by rewrite Z.sub_diag. Qed.

Lemma covers_reconstruct text a l b :
  covers (len text) a l b → 0 ≤ a → b ≤ len text →
  concat (map (text_with_ws text) l) = slice text (Some a) (Some b).
Proof.
  induction 1 as [a | a t e l b Hs He Hle Hl IH | a t Hs He Hle];
    intros Ha Hb; simpl.
  - by rewrite slice_empty.
  - pose proof (covers_le _ _ _ _ Hl) as Hmono.
    pose proof (int_range (space_after t)) as Hint.
    rewrite IH by lia.
    unfold text_with_ws, span_text, space_text. rewrite Hs, He. simpl.
    unfold Z.succ. destruct (space_after t); simpl in *.
    + rewrite slice_join by lia.
      replace (e + 1 + 1) with (e + 2) by lia.
      apply slice_join; lia.
    + rewrite app_nil_r. replace (e + 1 + 0) with (e + 1) by lia.
      apply slice_join; lia.
  - unfold text_with_ws, span_text, space_text. rewrite Hs, He. simpl.
    rewrite !app_nil_r. destruct (space_after t); simpl;
      rewrite ?app_nil_r; symmetry; apply slice_to_end; lia.
Qed.

Lemma covers_start n a t l b : covers n a (t :: l) b → start_pos t = a.
Proof. by inversion 1. Qed.

Lemma covers_adjacent n a l b :
  covers n a l b →
  ∀ i t u, l !! i = Some t → l !! S i = Some u →
           ∃ e, end_pos t = Some e
                ∧ e + 1 + int (space_after t) = start_pos u.
Proof.
  induction 1 as [a | a t e l b Hs He Hle Hl IH | a t Hs He Hle];
    intros i t0 u Ht Hu.
  - done.
  - destruct i as [|i]; simpl in *.
    + inversion Ht; subst t0. exists e. split; [done|].
      destruct l as [|u' l]; [done|]. simpl in Hu. inversion Hu; subst u'.
      symmetry. eapply covers_start. eassumption.
    + eapply IH; eassumption.
  - destruct i; simpl in *; done.
Qed.

Lemma covers_last text a l b t :
  covers (len text) a l b → last l = Some t →
  effective_end text t
  + match end_pos t with Some _ => int (space_after t) | None => 0 end
  = b - 1.
Proof.
  induction 1 as [a | a t0 e l b Hs He Hle Hl IH | a t0 Hs He Hle];
    intros Hlast.
  - done.
  - destruct l as [|u l].
    + simpl in Hlast. inversion Hlast; subst t0.
      inversion Hl; subst. unfold effective_end. rewrite He. lia.
    + apply IH. by rewrite last_cons_cons in Hlast.
  - simpl in Hlast. inversion Hlast; subst t0.
    unfold effective_end. rewrite He. lia.
Qed.

Lemma covers_contiguous_ws text l :
  covers (len text) 0 l (len text) → contiguous_ws text l.
Proof.
  intros Hc. split; [|split].
  - eapply covers_adjacent. eassumption.
  - intros t Ht. destruct l as [|t0 l]; [done|].
    simpl in Ht. inversion Ht; subst t0. eapply covers_start. eassumption.
  - intros t Ht. eapply covers_last; eassumption.
Qed.

Lemma fuel_enough {A} (s : list A) (fuel : nat) :
  (length s < fuel)%nat → len s < Z.of_nat fuel.
Proof. unfold len. lia. Qed.

(** ** The example configurations are well formed *)

Lemma search_open_ok : search_ok (Some search_open).
Proof.
  intros f s m Hf Hm. inversion Hf; subst f. unfold search_open in Hm.
  destruct s as [|c s]; [done|].
  destruct (Ascii.eqb c "("); [|done]. inversion Hm; subst m.
  unfold within, len; simpl. lia.
Qed.

Lemma search_nothing_ok : search_ok (Some search_nothing).
Proof.
  intros f s m Hf Hm. inversion Hf; subst f. inversion Hm; subst m.
  pose proof (len_nonneg s). unfold within; simpl. lia.
Qed.

Lemma bare_wf : wf_config bare.
Proof.
  split.
  - intros f s m Hf. done.
  - intros f s m Hf. done.
  - intros s. repeat split; [constructor | done].
  - intros s orths Hs. done.
Qed.

Lemma hyphens_spec s : ∀ i,
  Forall (fun m => i ≤ m_start m ∧ m_end m = m_start m + 1
                   ∧ m_end m ≤ i + len s) (hyphens i s)
  ∧ ∀ lo, lo ≤ i → ordered lo (hyphens i s).
Proof.
  induction s as [|c s IH]; intros i; simpl.
  - split; [constructor | done].
  - destruct (IH (i + 1)) as [Hall Hord].
    assert (Hlen : len (c :: s) = 1 + len s) by (unfold len; simpl; lia).
    pose proof (len_nonneg s).
    assert (Hall' : Forall (fun m => i ≤ m_start m ∧ m_end m = m_start m + 1
                     ∧ m_end m ≤ i + len (c :: s)) (hyphens (i + 1) s)).
    { eapply Forall_impl; [exact Hall|]. simpl. intros m (? & ? & ?). lia. }
    destruct (Ascii.eqb c "-"); simpl.
    + split.
      * constructor; [simpl; lia | done].
      * intros lo Hlo. repeat split; simpl; try lia. apply Hord. lia.
    + split; [done|]. intros lo Hlo. apply Hord. lia.
Qed.

Lemma demo_wf : wf_config demo.
Proof.
  split.
  - exact search_open_ok.
  - intros f s m Hf Hm. inversion Hf; subst f. unfold search_close in Hm.
    destruct (last s) as [c|] eqn:El; [|done].
    destruct (Ascii.eqb c ")"); [|done]. inversion Hm; subst m.
    assert (0 < len s).
    { destruct s; [done|]. unfold len; simpl; lia. }
    unfold within; simpl. lia.
  - intros s. unfold find_infix; simpl.
    destruct (hyphens_spec s 0) as [Hall Hord].
    split; [by apply Hord|]. split.
    + eapply Forall_impl; [exact Hall|]. simpl. intros m (? & ? & ?).
      unfold within. lia.
    + intros Hne _. destruct (hyphens 0 s) as [|m ms]; [done|].
      apply Forall_cons in Hall as [(? & ? & ?) _].
      apply Exists_cons_hd. lia.
  - intros s orths Hs. simpl in Hs.
    apply lookup_insert_Some in Hs as [[<- <-] | [_ Hs] ]; [reflexivity|].
    apply lookup_singleton_Some in Hs as [<- <-]. reflexivity.
Qed.

(** ** Termination of the affix loop *)

Lemma strip_prefix_len tk st :
  search_ok (prefix_search tk) →
  len (af_substring (strip_prefix tk st))
  = len (af_substring st) - find_prefix tk (af_substring st).
Proof.
  intros Hok. unfold strip_prefix, _get_prefix_token_meta.
  destruct (find_prefix_range tk (af_substring st) Hok) as [H0 Hn].
  destruct (truthy (find_prefix tk (af_substring st))) eqn:E.
  - apply truthy_true in E.
    destruct (find_prefix tk (af_substring st) =? 0) eqn:E0; [lia|].
    simpl. rewrite len_slice_from, clip_id by lia. lia.
  - apply truthy_false in E. lia.
Qed.

Lemma strip_suffix_len tk st :
  search_ok (suffix_search tk) →
  len (af_substring (strip_suffix tk st))
  = len (af_substring st) - find_suffix tk (af_substring st).
Proof.
  intros Hok. unfold strip_suffix, _get_suffix_token_meta.
  destruct (find_suffix_range tk (af_substring st) Hok) as [H0 Hn].
  destruct (truthy (find_suffix tk (af_substring st))) eqn:E.
  - apply truthy_true in E.
    destruct (find_suffix tk (af_substring st) =? 0) eqn:E0; [lia|].
    simpl. rewrite len_slice_to. unfold clip.
    destruct (- find_suffix tk (af_substring st) <? 0) eqn:E1; lia.
  - apply truthy_false in E. lia.
Qed.

Lemma affix_body_len tk st :
  search_ok (prefix_search tk) → search_ok (suffix_search tk) →
  truthy (find_prefix tk (af_substring st))
  || truthy (find_suffix tk (af_substring st)) = true →
  match affix_body tk st with
  | Break st' => len (af_substring st') ≤ len (af_substring st)
  | Continue st' => len (af_substring st') < len (af_substring st)
  end.
Proof.
  intros Hpre Hsuf Hcond. unfold affix_body.
  destruct (in_special tk (af_substring st)); [lia|].
  pose proof (strip_prefix_len tk st Hpre) as Hlen1.
  destruct (find_prefix_range tk (af_substring st) Hpre) as [Hp0 _].
  destruct (truthy (find_prefix tk (af_substring st))
            && in_special tk (af_substring (strip_prefix tk st))) eqn:Eb;
    [lia|].
  pose proof (strip_suffix_len tk (strip_prefix tk st) Hsuf) as Hlen2.
  destruct (find_suffix_range tk (af_substring (strip_prefix tk st)) Hsuf)
    as [Hs0 _].
  destruct (truthy (find_prefix tk (af_substring st))) eqn:Ep.
  - apply truthy_true in Ep. lia.
  - simpl in Hcond. apply truthy_true in Hcond.
    assert (Hsame : strip_prefix tk st = st).
    { unfold strip_prefix. by rewrite Ep. }
    rewrite Hsame in *. lia.
Qed.

Lemma affix_loop_total tk :
  search_ok (prefix_search tk) → search_ok (suffix_search tk) →
  ∀ fuel st,
    len (af_substring st) < Z.of_nat fuel →
    ∃ st', affix_loop tk fuel st = Ret st'
           ∧ len (af_substring st') ≤ len (af_substring st).
Proof.
  intros Hpre Hsuf. induction fuel as [|fuel IH]; intros st Hlt.
  - pose proof (len_nonneg (af_substring st)). lia.
  - simpl.
    destruct (truthy (find_prefix tk (af_substring st))
              || truthy (find_suffix tk (af_substring st))) eqn:Ec.
    + pose proof (affix_body_len tk st Hpre Hsuf Ec) as Hb.
      destruct (affix_body tk st) as [st'|st'].
      * exists st'. done.
      * destruct (IH st') as (st'' & Hr & Hl); [lia|].
        exists st''. split; [done | lia].
    + exists st. split; [done | lia].
Qed.

(** The affix loop reads the matchers through [find_prefix] and
    [find_suffix] only, and these do not tell an empty match from no
    match. *)
Lemma skip_empty_length search s :
  match skip_empty search s with Some m => m_end m - m_start m | None => 0 end
  = match search s with Some m => m_end m - m_start m | None => 0 end.
Proof.
  unfold skip_empty. destruct (search s) as [m|]; [|done].
  destruct (m_end m - m_start m =? 0) eqn:E; [lia | done].
Qed.

Lemma find_prefix_ignore_empty tk s :
  find_prefix (ignore_empty_affix tk) s = find_prefix tk s.
Proof.
  unfold find_prefix; simpl.
  destruct (prefix_search tk) as [f|]; simpl; [|done].
  apply skip_empty_length.
Qed.

Lemma find_suffix_ignore_empty tk s :
  find_suffix (ignore_empty_affix tk) s = find_suffix tk s.
Proof.
  unfold find_suffix; simpl.
  destruct (suffix_search tk) as [f|]; simpl; [|done].
  apply skip_empty_length.
Qed.

Lemma affix_body_ignore_empty tk st :
  affix_body (ignore_empty_affix tk) st = affix_body tk st.
Proof.
  unfold affix_body, strip_prefix, strip_suffix, _get_prefix_token_meta,
    _get_suffix_token_meta, in_special.
  simpl. by rewrite !find_prefix_ignore_empty, !find_suffix_ignore_empty.
Qed.

Lemma affix_loop_ignore_empty tk fuel : ∀ st,
  affix_loop (ignore_empty_affix tk) fuel st = affix_loop tk fuel st.
Proof.
  induction fuel as [|fuel IH]; intros st; simpl; [done|].
  rewrite find_prefix_ignore_empty, find_suffix_ignore_empty,
    affix_body_ignore_empty.
  destruct (truthy (find_prefix tk (af_substring st))
            || truthy (find_suffix tk (af_substring st))); [|done].
  destruct (affix_body tk st); [done | apply IH].
Qed.

Lemma len_lt_length {A} (s t : list A) :
  len s < len t ↔ (length s < length t)%nat.
Proof. unfold len. lia. Qed.

Lemma len_le_length {A} (s t : list A) :
  len s ≤ len t ↔ (length s ≤ length t)%nat.
Proof. unfold len. lia. Qed.

(** ** Exceptions stop the stripping *)

Lemma affix_loop_key tk fuel st :
  in_special tk (af_substring st) = true → affix_loop tk (S fuel) st = Ret st.
Proof.
  intros Hk. simpl. unfold affix_body. rewrite Hk.
  by destruct (truthy (find_prefix tk (af_substring st))
               || truthy (find_suffix tk (af_substring st))).
Qed.

Lemma resolve_key tk st orths :
  special_cases tk !! af_substring st = Some orths →
  resolve tk st
  = Ret (mkSplit [] (af_pos st) (af_prefixes st) (af_suffixes st) []
                 (special_spans orths (af_pos st))).
Proof.
  intros Ho. unfold resolve.
  rewrite (proj2 (in_special_true tk _) (ex_intro _ orths Ho)).
  unfold _get_special_cases_token_meta. by rewrite Ho.
Qed.

Lemma split_affixes_key tk fuel s p0 orths :
  s ≠ [] → special_cases tk !! s = Some orths →
  _split_affixes tk (S fuel) s p0
  = Ret (mkSplit [] p0 [] [] [] (special_spans orths p0)).
Proof.
  intros Hs Ho. rewrite split_affixes_unfold by done.
  rewrite affix_loop_key.
  - simpl. by rewrite (resolve_key tk (mkAffix s p0 [] []) orths).
  - apply in_special_true. eauto.
Qed.

Lemma snoc_inv {A} (l : list A) : l ≠ [] → ∃ front x, l = front ++ [x].
Proof.
  intros Hne. destruct (exists_last Hne) as (front & x & ->). eauto.
Qed.

(** ** The infix splitter on arbitrary matches *)

Lemma slice_nil {A} (lo hi : option Z) : slice (@nil A) lo hi = [].
Proof. unfold slice. by rewrite drop_nil, take_nil. Qed.

Lemma emit_piece_nil st : emit_piece [] st = st.
Proof. reflexivity. Qed.

Lemma emit_piece_keeps piece st :
  ix_metas st ≠ [] → ix_metas (emit_piece piece st) ≠ [].
Proof.
  intros Hne. unfold emit_piece. destruct (nonempty piece); [|done].
  simpl. intros Habs. by apply app_eq_nil in Habs as [? _].
Qed.

Lemma emit_piece_adds piece st :
  nonempty piece = true → ix_metas (emit_piece piece st) ≠ [].
Proof.
  intros Hp. unfold emit_piece. rewrite Hp. simpl.
  intros Habs. by apply app_eq_nil in Habs as [_ ?].
Qed.

(** Something was emitted, or some text is still pending. *)
Lemma infix_step_progress (s : str) st m :
  ix_metas st ≠ [] ∨ clip (len s) (ix_offset st) < len s →
  ix_metas (infix_step s st m) ≠ []
  ∨ clip (len s) (ix_offset (infix_step s st m)) < len s.
Proof.
  intros [Hne | Hlt]; unfold infix_step; simpl.
  - left. by do 2 apply emit_piece_keeps.
  - destruct (nonempty (slice s (Some (ix_offset st)) (Some (m_start m))))
      eqn:E1.
    { left. apply emit_piece_keeps. by apply emit_piece_adds. }
    destruct (nonempty (slice s (Some (m_start m)) (Some (m_end m)))) eqn:E2.
    { left. by apply emit_piece_adds. }
    right. apply nonempty_false_len in E1, E2.
    rewrite len_slice in E1, E2. lia.
Qed.

Lemma infix_loop_progress (s : str) ms : ∀ st,
  ix_metas st ≠ [] ∨ clip (len s) (ix_offset st) < len s →
  ix_metas (infix_loop s st ms) ≠ []
  ∨ clip (len s) (ix_offset (infix_loop s st ms)) < len s.
Proof.
  induction ms as [|m ms IH]; intros st H; simpl; [done|].
  apply IH. by apply infix_step_progress.
Qed.

(** Of a string that is not empty the infix splitter makes at least one
    span, whatever the matches. *)
Lemma infix_spans_nonempty (s : str) pos ms :
  s ≠ [] → infix_spans s pos ms ≠ [].
Proof.
  intros Hs. unfold infix_spans.
  assert (Hpos : 0 < len s).
  { destruct s; [done|]. unfold len; simpl; lia. }
  destruct (infix_loop_progress s ms (mkInfix 0 pos 0 [])) as [Hne | Hlt].
  { right. simpl. rewrite clip_id; lia. }
  - unfold infix_rest.
    destruct (nonempty (slice s (Some (ix_offset _)) None)); [|done].
    simpl. intros Habs. by apply app_eq_nil in Habs as [? _].
  - unfold infix_rest.
    set (st := infix_loop s (mkInfix 0 pos 0 []) ms) in *.
    assert (E : nonempty (slice s (Some (ix_offset st)) None) = true).
    { apply nonempty_len. rewrite len_slice_from. lia. }
    rewrite E. simpl. intros Habs. by apply app_eq_nil in Habs as [_ ?].
Qed.

Lemma infix_loop_nil ms : ∀ st,
  ix_metas (infix_loop [] st ms) = ix_metas st.
Proof.
  induction ms as [|m ms IH]; intros st; simpl; [done|].
  rewrite IH. unfold infix_step. by rewrite !slice_nil, !emit_piece_nil.
Qed.

(** Of the empty string it makes none. *)
Lemma infix_spans_nil pos ms : infix_spans [] pos ms = [].
Proof.
  unfold infix_spans, infix_rest. rewrite slice_nil. simpl.
  by rewrite infix_loop_nil.
Qed.

Lemma infix_loop_app s st ms1 ms2 :
  infix_loop s st (ms1 ++ ms2) = infix_loop s (infix_loop s st ms1) ms2.
Proof. unfold infix_loop. apply fold_left_app. Qed.

(** An empty match at the running offset changes nothing. *)
Lemma infix_step_empty_at_offset s st m :
  m_start m = m_end m → ix_offset st = m_end m → infix_step s st m = st.
Proof.
  intros Hm Ho. unfold infix_step.
  rewrite Hm, Ho, !slice_empty, !emit_piece_nil, <- Ho. by destruct st.
Qed.

Lemma resolve_returns tk st : ∃ sp, resolve tk st = Ret sp.
Proof.
  unfold resolve. destruct (in_special tk (af_substring st)) eqn:Ek.
  - apply in_special_true in Ek as [orths Ho].
    unfold _get_special_cases_token_meta. rewrite Ho. simpl. eauto.
  - destruct (nonempty (find_infix tk (af_substring st))); eauto.
Qed.

Lemma nonempty_true_iff {A} (l : list A) : nonempty l = true ↔ l ≠ [].
Proof. destruct l; simpl; split; intros; done. Qed.

Lemma core_span_nonempty s pos : nonempty (core_span s pos) = nonempty s.
Proof. unfold core_span. by destruct (nonempty s). Qed.

Lemma b2n_le_1 b : (Nat.b2n b ≤ 1)%nat.
Proof. destruct b; simpl; lia. Qed.

(** The outcome groups of a run, from the state the loop ended in. *)
Lemma resolve_groups tk st sp :
  resolve tk st = Ret sp →
  (groups sp ≤ 1)%nat
  ∧ (af_substring st ≠ [] →
     special_cases tk !! af_substring st ≠ Some [] → groups sp = 1%nat)
  ∧ (af_substring st = [] →
     special_cases tk !! af_substring st = None → groups sp = 0%nat).
Proof.
  unfold resolve. destruct (in_special tk (af_substring st)) eqn:Ek.
  - apply in_special_true in Ek as [orths Ho].
    unfold _get_special_cases_token_meta. rewrite Ho.
    intros Hsp. inversion Hsp; subst sp. clear Hsp.
    unfold groups.
    cbn [sp_special_tokens sp_substring sp_pos sp_infixes core_span nonempty
         Nat.b2n].
    pose proof (b2n_le_1 (nonempty (special_spans orths (af_pos st)))).
    split; [lia|]. split.
    + intros _ Hne. destruct orths; [done|]. reflexivity.
    + intros _ Hn. congruence.
  - apply in_special_false in Ek.
    destruct (nonempty (find_infix tk (af_substring st))) eqn:Ei;
      intros Hsp; inversion Hsp; subst sp; clear Hsp; unfold groups;
      cbn [sp_special_tokens sp_substring sp_pos sp_infixes].
    + cbn [core_span nonempty Nat.b2n].
      pose proof (b2n_le_1 (nonempty (_get_infix_token_meta tk
                                        (af_substring st) (af_pos st)))).
      split; [lia|]. split.
      * intros Hne _. unfold _get_infix_token_meta.
        pose proof (infix_spans_nonempty (af_substring st) (af_pos st)
                      (find_infix tk (af_substring st)) Hne) as Hi.
        apply nonempty_true_iff in Hi. by rewrite Hi.
      * intros He _. unfold _get_infix_token_meta.
        by rewrite He, infix_spans_nil.
    + rewrite core_span_nonempty. cbn [nonempty Nat.b2n].
      pose proof (b2n_le_1 (nonempty (af_substring st))).
      split; [lia|]. split.
      * intros Hne _. apply nonempty_true_iff in Hne. by rewrite Hne.
      * intros He _. by rewrite He.
Qed.

(** ** The examples of the docstring of [__call__] *)

(** The spans as (start, end, space_after, is_space). *)
Example docstring_three_tokens :
  call bare 14 (py "I love apples")
  = Ret [mkTokenMeta 0 (Some 0) true false;
         mkTokenMeta 2 (Some 5) true false;
         mkTokenMeta 7 (Some 12) false false].
Proof. vm_compute. reflexivity. Qed.

Example docstring_double_space :
  call bare 16 (py "I  love apples ")
  = Ret [mkTokenMeta 0 (Some 0) true false;
         mkTokenMeta 2 (Some 2) false true;
         mkTokenMeta 3 (Some 6) true false;
         mkTokenMeta 8 (Some 13) true false].
Proof. vm_compute. reflexivity. Qed.

Example docstring_leading_space :
  call bare 9 (py " I love ")
  = Ret [mkTokenMeta 0 (Some 0) false true;
         mkTokenMeta 1 (Some 1) true false;
         mkTokenMeta 3 (Some 6) true false].
Proof. vm_compute. reflexivity. Qed.

Example docstring_infix :
  call demo 14 (py "I love-apples")
  = Ret [mkTokenMeta 0 (Some 0) true false;
         plain 2 5; plain 6 6; plain 7 12].
Proof. vm_compute. reflexivity. Qed.

(** The block after the loop of [_get_infix_token_meta] restarts from
    [end_pos + 1], and [end_pos] is still 0 when the loop made no span: a
    run whose only infix match is the empty match at its start gets one
    span that starts at 1, wherever the run starts. *)
Remark infix_rest_starts_at_one :
  infix_spans (py "ab") 0 [mkMatch 0 0] = [plain 1 2]
  ∧ infix_spans (py "ab") 7 [mkMatch 0 0] = [plain 1 2].
Proof. split; vm_compute; reflexivity. Qed.

(** * The claims *)

(** ** C1: reconstruction *)

(** C1, as stated, fails: for the text ["a b"] and the tokenizer without
    matchers (a well-formed configuration) the substrings denoted by the
    spans of [__call__] concatenate to ["ab"], not to the text: the white
    space character that ends a run belongs to no span. *)
Lemma C1_substrings_drop_single_space :
  wf_config bare
  ∧ ∃ doc, call bare 4 (py "a b") = Ret doc
           ∧ substrings (py "a b") doc = py "ab"
           ∧ substrings (py "a b") doc ≠ py "a b".
Proof.
  split; [exact bare_wf|].
  eexists; split; [vm_compute; reflexivity|].
  split; [vm_compute; reflexivity | vm_compute; discriminate].
Qed.

(** C1, amended: for every text that is not empty and every well-formed
    configuration (matches of the prefix and suffix matchers inside the
    searched string; infix matches ordered, inside the string and not all
    empty at position 0; sub-token lengths of an exception adding up to the
    length of its key), [__call__] returns a document, and concatenating in
    document order the substring of each span followed, when its
    [space_after] is set and the span has an end, by the one character
    after the span reproduces the text exactly. *)
Theorem call_reconstructs tk fuel (text : str) :
  wf_config tk → text ≠ [] → (length text < fuel)%nat →
  ∃ doc, call tk fuel text = Ret doc ∧ reconstruct text doc = text.
Proof.
  intros Hwf Hne Hfuel.
  destruct (call_ok tk fuel text Hwf (fuel_enough _ _ Hfuel) Hne)
    as (doc & Hcall & Hcov & _).
  exists doc. split; [done|]. unfold reconstruct.
  rewrite (covers_reconstruct text 0 doc (len text) Hcov); [|lia|lia].
  rewrite slice_to_end; [apply slice_all | lia | apply len_nonneg].
Qed.

Lemma call_reconstructs_witness :
  ∃ doc, call demo 30 (py "(I don't  love-apples) ") = Ret doc
         ∧ reconstruct (py "(I don't  love-apples) ") doc
           = py "(I don't  love-apples) ".
Proof.
  apply (call_reconstructs demo 30 (py "(I don't  love-apples) ") demo_wf).
  - discriminate.
  - vm_compute. lia.
Defined.

(** ** C2: contiguity *)

(** C2, as stated, fails: in the document of ["a b"] the first span ends at
    0 and the second one starts at 2. *)
Lemma C2_gap_after_run :
  ∃ doc, call bare 4 (py "a b") = Ret doc ∧ ¬ contiguous (py "a b") doc.
Proof.
  eexists; split; [vm_compute; reflexivity|].
  intros (Hadj & _ & _).
  destruct (Hadj 0%nat _ _ eq_refl eq_refl) as (e & He & Hgap).
  simpl in He, Hgap. inversion He; subst e. lia.
Qed.

(** C2, amended: for every text that is not empty and every well-formed
    configuration the spans of [__call__] satisfy: for every adjacent pair
    [s[i].end_pos + 1 + int(s[i].space_after) == s[i+1].start_pos] (and
    [s[i].end_pos] is not [None]); [s[0].start_pos == 0]; and the effective
    end of the last span, plus one when it has an [end_pos] and its
    [space_after] is set, is [len(D) - 1]. *)
Theorem call_contiguous tk fuel (text : str) :
  wf_config tk → text ≠ [] → (length text < fuel)%nat →
  ∃ doc, call tk fuel text = Ret doc ∧ contiguous_ws text doc.
Proof.
  intros Hwf Hne Hfuel.
  destruct (call_ok tk fuel text Hwf (fuel_enough _ _ Hfuel) Hne)
    as (doc & Hcall & Hcov & _).
  exists doc. split; [done | by apply covers_contiguous_ws].
Qed.

Lemma call_contiguous_witness :
  ∃ doc, call demo 30 (py " (a-b)  don't ") = Ret doc
         ∧ contiguous_ws (py " (a-b)  don't ") doc.
Proof.
  apply (call_contiguous demo 30 (py " (a-b)  don't ") demo_wf).
  - discriminate.
  - vm_compute. lia.
Defined.

(** ** C3: the empty text *)

(** C3: on the empty string [__call__] does not return a document: its
    first statement after creating the document reads [text[0]], which
    raises [IndexError], whatever the configuration. *)
Theorem call_empty_raises tk fuel : call tk fuel [] = Raise IndexError.
Proof. reflexivity. Qed.

(** ** C4: the flag of a white space span *)

(** C4, as stated, fails: in [" a"] the white space run is closed by the
    character [a], and its span has [space_after] unset. *)
Lemma C4_flag_is_false :
  ∃ doc t, call bare 3 (py " a") = Ret doc ∧ doc !! 0%nat = Some t
           ∧ is_space t = true ∧ end_pos t = Some 0
           ∧ space_after t = false.
Proof. eexists _, _. vm_compute. repeat split; reflexivity. Qed.

(** C4, amended: for every text that is not empty and every well-formed
    configuration, every white space span of the document that has an end,
    that is, every span of a white space run closed inside the text, has
    [space_after] unset: the flag is the class of the character that closes
    the run, and that character is not white space. *)
Theorem whitespace_run_flag tk fuel (text : str) :
  wf_config tk → text ≠ [] → (length text < fuel)%nat →
  ∃ doc, call tk fuel text = Ret doc
         ∧ ∀ t, t ∈ doc → is_space t = true → is_Some (end_pos t) →
                space_after t = false.
Proof.
  intros Hwf Hne Hfuel.
  destruct (call_ok tk fuel text Hwf (fuel_enough _ _ Hfuel) Hne)
    as (doc & Hcall & _ & Hws).
  exists doc. split; [done|]. intros t Ht Hsp [e He].
  unfold ws_flags in Hws. rewrite Forall_forall in Hws.
  apply (Hws t Ht Hsp). by rewrite He.
Qed.

Lemma whitespace_run_flag_witness :
  ∃ doc, call demo 30 (py "  (a)   b ") = Ret doc
         ∧ ∀ t, t ∈ doc → is_space t = true → is_Some (end_pos t) →
                space_after t = false.
Proof.
  apply (whitespace_run_flag demo 30 (py "  (a)   b ") demo_wf).
  - discriminate.
  - vm_compute. lia.
Defined.

(** ** C5: termination of the affix loop *)

(** C5: for every tokenizer whose prefix and suffix matchers report
    matches inside the string they search (as every [re] match is), also
    when they match the empty string, the [while] loop of [_split_affixes]
    ends within [len(substring) + 1] evaluations of its condition: a turn
    that does not leave the loop makes the substring strictly shorter; and
    the loop runs exactly as it does for the tokenizer whose matchers
    report no match where they matched the empty string. *)
Theorem affix_loop_terminates tk fuel st :
  search_ok (prefix_search tk) → search_ok (suffix_search tk) →
  (length (af_substring st) < fuel)%nat →
  (∃ st', affix_loop tk fuel st = Ret st'
          ∧ (length (af_substring st') ≤ length (af_substring st))%nat)
  ∧ (∀ st', truthy (find_prefix tk (af_substring st))
            || truthy (find_suffix tk (af_substring st)) = true →
            affix_body tk st = Continue st' →
            (length (af_substring st') < length (af_substring st))%nat)
  ∧ affix_loop (ignore_empty_affix tk) fuel st = affix_loop tk fuel st.
Proof.
  intros Hpre Hsuf Hfuel. split; [|split].
  - destruct (affix_loop_total tk Hpre Hsuf fuel st (fuel_enough _ _ Hfuel))
      as (st' & Hr & Hl).
    exists st'. split; [done | by apply len_le_length].
  - intros st' Hc Hb. pose proof (affix_body_len tk st Hpre Hsuf Hc) as H.
    rewrite Hb in H. by apply len_lt_length.
  - apply affix_loop_ignore_empty.
Qed.

Lemma affix_loop_terminates_witness :
  (∃ st', affix_loop degenerate 4 (mkAffix (py "((a") 0 [] []) = Ret st'
          ∧ (length (af_substring st') ≤ 3)%nat)
  ∧ (∀ st', true = true →
            affix_body degenerate (mkAffix (py "((a") 0 [] []) = Continue st' →
            (length (af_substring st') < 3)%nat)
  ∧ affix_loop (ignore_empty_affix degenerate) 4 (mkAffix (py "((a") 0 [] [])
    = affix_loop degenerate 4 (mkAffix (py "((a") 0 [] []).
Proof.
  apply (affix_loop_terminates degenerate 4 (mkAffix (py "((a") 0 [] [])).
  - exact search_open_ok.
  - exact search_nothing_ok.
  - vm_compute. lia.
Defined.

(** ** C6: an exception entry that does not fit its key *)

(** C6, as stated, fails: the entry of ["ab"] declares one sub-token of one
    character, and [__call__] on ["ab"] returns a document all the same: a
    single span that ends at 0, although the text ends at 1. *)
Lemma C6_mismatch_not_rejected :
  special_cases mismatch !! py "ab" = Some [py "a"]
  ∧ orth_total [py "a"] ≠ len (py "ab")
  ∧ call mismatch 3 (py "ab") = Ret [mkTokenMeta 0 (Some 0) false false]
  ∧ ¬ contiguous_ws (py "ab") [mkTokenMeta 0 (Some 0) false false].
Proof.
  split; [vm_compute; reflexivity|].
  split; [vm_compute; discriminate|].
  split; [vm_compute; reflexivity|].
  intros (_ & _ & Hlast). specialize (Hlast _ eq_refl).
  vm_compute in Hlast. discriminate.
Qed.

(** C6, amended: the tokenizer does not compare the sub-token lengths of an
    exception entry with the length of its key.  For every run that is a
    key of the table, whatever the lengths its entry declares (the entry not
    being the empty list), [_tokenize] returns without an error and appends
    one span for each declared sub-token, laid end to end from the start of
    the run by the declared lengths, so that together they span the sum of
    these lengths; the last one carries the [space_after] of the run. *)
Theorem special_case_unchecked tk fuel (s : str) tm doc orths :
  s ≠ [] → special_cases tk !! s = Some orths → orths ≠ [] →
  ∃ front t,
    special_spans orths (start_pos tm) = front ++ [t]
    ∧ _tokenize tk (S fuel) s tm doc
      = Ret (doc ++ front ++ [set_space_after t (space_after tm)])
    ∧ length (front ++ [t]) = length orths
    ∧ tiles (start_pos tm) (front ++ [t])
            (start_pos tm + orth_total orths).
Proof.
  intros Hs Ho Hne.
  destruct (snoc_inv (special_spans orths (start_pos tm)))
    as (front & t & Heq).
  { destruct orths; [done|]. simpl. done. }
  exists front, t. split; [done|]. split; [|split].
  - unfold _tokenize. rewrite (split_affixes_key tk fuel s _ orths Hs Ho).
    simpl. apply attach_tokens_snoc.
    unfold run_spans; simpl. by rewrite app_nil_r.
  - rewrite <- Heq. apply special_spans_length.
  - rewrite <- Heq. apply special_spans_tiles.
Qed.

Lemma special_case_unchecked_witness :
  ∃ front t,
    special_spans [py "a"] 0 = front ++ [t]
    ∧ _tokenize mismatch 1 (py "ab") (mkTokenMeta 0 None false false) []
      = Ret ([] ++ front ++ [set_space_after t false])
    ∧ length (front ++ [t]) = 1%nat
    ∧ tiles 0 (front ++ [t]) (0 + orth_total [py "a"]).
Proof.
  apply (special_case_unchecked mismatch 0 (py "ab")
           (mkTokenMeta 0 None false false) [] [py "a"]).
  - discriminate.
  - vm_compute. reflexivity.
  - discriminate.
Defined.

(** ** C8: the exception table has precedence *)

(** C8: when the current substring of the affix loop is a key of the
    exception table, the loop stops there, with nothing more stripped, and
    the substring is resolved through the table.  The table is consulted
    at the head of every turn, that is before the first prefix is stripped
    and after every suffix that was stripped, and once more after a prefix
    was stripped; in particular a raw run that is a key is resolved through
    the table whatever the prefix and suffix matchers find in it. *)
Theorem exception_stops_stripping tk fuel st orths :
  special_cases tk !! af_substring st = Some orths →
  affix_loop tk (S fuel) st = Ret st
  ∧ resolve tk st
    = Ret (mkSplit [] (af_pos st) (af_prefixes st) (af_suffixes st) []
                   (special_spans orths (af_pos st)))
  ∧ (∀ st0, in_special tk (af_substring st0) = false →
            truthy (find_prefix tk (af_substring st0)) = true →
            strip_prefix tk st0 = st →
            affix_loop tk (S fuel) st0 = Ret st)
  ∧ (∀ st0, truthy (find_prefix tk (af_substring st0))
            || truthy (find_suffix tk (af_substring st0)) = true →
            affix_body tk st0 = Continue st →
            affix_loop tk (S (S fuel)) st0 = Ret st)
  ∧ (af_substring st ≠ [] →
     ∀ p0, _split_affixes tk (S fuel) (af_substring st) p0
           = Ret (mkSplit [] p0 [] [] [] (special_spans orths p0))).
Proof.
  intros Ho.
  assert (Hk : in_special tk (af_substring st) = true).
  { apply in_special_true. eauto. }
  split; [by apply affix_loop_key|].
  split; [by apply resolve_key|].
  split; [|split].
  - intros st0 Hn Hp Hst. simpl. rewrite Hp. simpl.
    unfold affix_body. rewrite Hn, Hp, Hst, Hk. done.
  - intros st0 Hc Hb.
    change (affix_loop tk (S (S fuel)) st0)
      with (if truthy (find_prefix tk (af_substring st0))
               || truthy (find_suffix tk (af_substring st0))
            then match affix_body tk st0 with
                 | Break st' => Ret st'
                 | Continue st' => affix_loop tk (S fuel) st'
                 end
            else Ret st0).
    rewrite Hc, Hb. by apply affix_loop_key.
  - intros Hs p0. by apply split_affixes_key.
Qed.

Lemma exception_stops_stripping_witness :
  affix_loop demo 1 (mkAffix (py "(c)") 4 [] []) = Ret (mkAffix (py "(c)") 4 [] [])
  ∧ resolve demo (mkAffix (py "(c)") 4 [] [])
    = Ret (mkSplit [] 4 [] [] [] (special_spans [py "(c)"] 4))
  ∧ (∀ st0, in_special demo (af_substring st0) = false →
            truthy (find_prefix demo (af_substring st0)) = true →
            strip_prefix demo st0 = mkAffix (py "(c)") 4 [] [] →
            affix_loop demo 1 st0 = Ret (mkAffix (py "(c)") 4 [] []))
  ∧ (∀ st0, truthy (find_prefix demo (af_substring st0))
            || truthy (find_suffix demo (af_substring st0)) = true →
            affix_body demo st0 = Continue (mkAffix (py "(c)") 4 [] []) →
            affix_loop demo 2 st0 = Ret (mkAffix (py "(c)") 4 [] []))
  ∧ (py "(c)" ≠ [] →
     ∀ p0, _split_affixes demo 1 (py "(c)") p0
           = Ret (mkSplit [] p0 [] [] [] (special_spans [py "(c)"] p0))).
Proof.
  apply (exception_stops_stripping demo 0 (mkAffix (py "(c)") 4 [] [])
           [py "(c)"]).
  vm_compute. reflexivity.
Defined.

(** ** The fix-up of the last span *)

(** When a run contributes at least one span, [_tokenize] leaves the spans
    already in the document as they are, appends the spans of the run in
    their order, and changes of the last of them the [space_after] only,
    which becomes the [space_after] the driver observed for the run. *)
Lemma tokenize_fixes_last_span tk fuel (s : str) tm doc sp :
  _split_affixes tk fuel s (start_pos tm) = Ret sp →
  run_spans sp ≠ [] →
  ∃ front t t',
    run_spans sp = front ++ [t]
    ∧ _tokenize tk fuel s tm doc = Ret (doc ++ front ++ [t'])
    ∧ space_after t' = space_after tm
    ∧ start_pos t' = start_pos t
    ∧ end_pos t' = end_pos t
    ∧ is_space t' = is_space t.
Proof.
  intros Hsp Hne.
  destruct (snoc_inv (run_spans sp) Hne) as (front & t & Heq).
  exists front, t, (set_space_after t (space_after tm)).
  split; [done|]. split; [|done].
  unfold _tokenize. rewrite Hsp. simpl. by apply attach_tokens_snoc.
Qed.

(** ** C7: an infix match of length 0 *)

(** C7, as stated, fails: on the run ["ab"] the infix matcher reports the
    empty match at position 1; the run is split into two spans there, while
    without that match it is one span. *)
Lemma C7_empty_match_splits_run :
  find_infix between (py "ab") = [mkMatch 1 1]
  ∧ find_infix (ignore_empty_infix between) (py "ab") = []
  ∧ _tokenize between 1 (py "ab") (mkTokenMeta 0 None false false) []
    = Ret [plain 0 0; plain 1 1]
  ∧ _tokenize (ignore_empty_infix between) 1 (py "ab")
              (mkTokenMeta 0 None false false) []
    = Ret [plain 0 1].
Proof. repeat split; vm_compute; reflexivity. Qed.

(** C7, amended: an infix match of length 0 is never an error and never
    gives a span for its own region, but it is not skipped: in its turn of
    the loop the running offset moves to its position, and the text that
    was pending before it, from the running offset to its position, is
    closed as a span when it is not empty; nothing else is added.  When the
    match lies at the running offset, so that no text is pending before it,
    the list of spans [_get_infix_token_meta] builds from the matches is the
    one it builds from the matches without it. *)
Theorem empty_infix_match (s : str) pos ms1 m ms2 :
  m_start m = m_end m →
  (∀ st,
     ix_offset (infix_step s st m) = m_end m
     ∧ ix_metas (infix_step s st m)
       = ix_metas st
         ++ (if nonempty (slice s (Some (ix_offset st)) (Some (m_start m)))
             then [plain (ix_pos st)
                         (ix_pos st
                          + len (slice s (Some (ix_offset st))
                                       (Some (m_start m))) - 1)]
             else []))
  ∧ (ix_offset (infix_loop s (mkInfix 0 pos 0 []) ms1) = m_end m →
     infix_spans s pos (ms1 ++ m :: ms2) = infix_spans s pos (ms1 ++ ms2)).
Proof.
  intros Hm. split.
  - intros st. split; [done|]. unfold infix_step. simpl. rewrite <- Hm.
    rewrite (slice_empty s (m_start m)), emit_piece_nil.
    unfold emit_piece.
    destruct (nonempty (slice s (Some (ix_offset st)) (Some (m_start m))));
      simpl; [done | by rewrite app_nil_r].
  - intros Ho. unfold infix_spans. rewrite !infix_loop_app. simpl.
    by rewrite (infix_step_empty_at_offset s _ m Hm Ho).
Qed.

Lemma empty_infix_match_witness :
  (∀ st,
     ix_offset (infix_step (py "a-b") st (mkMatch 2 2)) = 2
     ∧ ix_metas (infix_step (py "a-b") st (mkMatch 2 2))
       = ix_metas st
         ++ (if nonempty (slice (py "a-b") (Some (ix_offset st)) (Some 2))
             then [plain (ix_pos st)
                         (ix_pos st
                          + len (slice (py "a-b") (Some (ix_offset st))
                                       (Some 2)) - 1)]
             else []))
  ∧ (ix_offset (infix_loop (py "a-b") (mkInfix 0 0 0 []) [mkMatch 1 2]) = 2 →
     infix_spans (py "a-b") 0 ([mkMatch 1 2] ++ mkMatch 2 2 :: [])
     = infix_spans (py "a-b") 0 ([mkMatch 1 2] ++ [])).
Proof.
  apply (empty_infix_match (py "a-b") 0 [mkMatch 1 2] (mkMatch 2 2) []).
  reflexivity.
Defined.

(** ** C9: the outcome groups of a run *)

(** C9, as stated, fails: of the run [")"] the suffix pattern takes the
    whole, and none of the three groups has a span. *)
Lemma C9_all_groups_empty :
  ∃ sp, _split_affixes demo 2 (py ")") 0 = Ret sp
        ∧ run_spans sp = [plain 0 0]
        ∧ groups sp = 0%nat.
Proof. eexists. repeat split; vm_compute; reflexivity. Qed.

(** C9, amended: for every run that is not empty (the prefix and suffix
    matches lying inside the searched string and the loop given the steps
    it needs) [_split_affixes] returns, and at most one of the exception
    spans, the span of the remaining core and the infix spans is not empty.
    Exactly one is when the substring that is left after the stripping is
    not empty and is not a key whose entry is the empty list; none is when
    the stripping has taken the whole run and the empty string is not a
    key. *)
Theorem one_outcome_group tk fuel (s : str) p0 :
  search_ok (prefix_search tk) → search_ok (suffix_search tk) →
  s ≠ [] → (length s < fuel)%nat →
  ∃ st sp,
    affix_loop tk fuel (mkAffix s p0 [] []) = Ret st
    ∧ _split_affixes tk fuel s p0 = Ret sp
    ∧ (groups sp ≤ 1)%nat
    ∧ (af_substring st ≠ [] →
       special_cases tk !! af_substring st ≠ Some [] → groups sp = 1%nat)
    ∧ (af_substring st = [] →
       special_cases tk !! af_substring st = None → groups sp = 0%nat).
Proof.
  intros Hpre Hsuf Hs Hfuel.
  destruct (affix_loop_total tk Hpre Hsuf fuel (mkAffix s p0 [] [])
              (fuel_enough _ _ Hfuel)) as (st & Hr & _).
  destruct (resolve_returns tk st) as [sp Hsp].
  exists st, sp. split; [done|]. split.
  - rewrite split_affixes_unfold by done. rewrite Hr. simpl. done.
  - by apply resolve_groups.
Qed.

Lemma one_outcome_group_witness :
  ∃ st sp,
    affix_loop demo 8 (mkAffix (py "((a-b)") 3 [] []) = Ret st
    ∧ _split_affixes demo 8 (py "((a-b)") 3 = Ret sp
    ∧ (groups sp ≤ 1)%nat
    ∧ (af_substring st ≠ [] →
       special_cases demo !! af_substring st ≠ Some [] → groups sp = 1%nat)
    ∧ (af_substring st = [] →
       special_cases demo !! af_substring st = None → groups sp = 0%nat).
Proof.
  apply (one_outcome_group demo 8 (py "((a-b)") 3).
  - exact search_open_ok.
  - exact (wf_suffix demo demo_wf).
  - discriminate.
  - vm_compute. lia.
Defined.

(** * Further properties of the tokenizer *)

(** ** Outcomes *)

Lemma bind_ret_inv {A B} (m : res A) (k : A → res B) b :
  m ≫= k = Ret b → ∃ a, m = Ret a ∧ k a = Ret b.
Proof. destruct m as [a| |]; simpl; intros H; [eauto | done | done]. Qed.

Lemma bind_ret_id {A} (m : res A) : m ≫= (fun a => Ret a) = m.
Proof. by destruct m. Qed.

Lemma nonempty_pos {A} (s : list A) : s ≠ [] → 0 < len s.
Proof. destruct s; [done|]. unfold len; simpl; lia. Qed.

(** ** Texts of one run *)

(** The scan of a text whose characters all have the class of the first
    one: nothing happens before the last character. *)
Lemma scan_one_run tk fuel text b :
  ∀ rest i,
    Forall (fun c => isspace c = b) rest → rest ≠ [] → 0 ≤ i →
    len text = i + len rest →
    scan_loop tk fuel text i rest (mkScan 0 b [])
    = finish tk fuel (slice text (Some 0) None) (mkTokenMeta 0 None b b) []
      ≫= fun doc => Ret (mkScan 0 b doc).
Proof.
  induction rest as [|c rest IH]; intros i Hall Hne H0i Hlen; [done|].
  apply Forall_cons in Hall as [Hc Hall].
  assert (Hl : len (c :: rest) = 1 + len rest) by (unfold len; simpl; lia).
  pose proof (len_nonneg rest) as Hr.
  simpl. unfold close_token. rewrite Hc, eqb_reflx. simpl.
  destruct rest as [|c' rest].
  - unfold last_token; simpl.
    assert (Hi : (i =? len text - 1) = true).
    { apply Z.eqb_eq. unfold len in *; simpl in *. lia. }
    assert (H0 : (0 <=? i) = true).
    { apply Z.leb_le. unfold len in *; simpl in *. lia. }
    rewrite Hi, H0. simpl.
    destruct (finish tk fuel (slice text (Some 0) None)
                (mkTokenMeta 0 None b b) []); reflexivity.
  - rewrite last_token_skip.
    2:{ unfold len in *; simpl in *. lia. }
    simpl. apply IH; [done | done | lia | lia].
Qed.

Lemma call_one_run tk fuel (text : str) b :
  text ≠ [] → Forall (fun c => isspace c = b) text →
  call tk fuel text
  = finish tk fuel text (mkTokenMeta 0 None b b) [].
Proof.
  intros Hne Hall. unfold call.
  destruct text as [|c0 text0] eqn:Et; [done|]. rewrite <- Et in *.
  assert (H0 : text !! Z.to_nat 0 = Some c0) by (by rewrite Et).
  rewrite (index_lookup _ _ _ (Z.le_refl 0) H0). simpl.
  assert (Hc0 : isspace c0 = b).
  { rewrite Et in Hall. by apply Forall_cons in Hall as [? _]. }
  rewrite Hc0, (scan_one_run tk fuel text b text 0 Hall Hne) by lia.
  rewrite slice_all.
  destruct (finish tk fuel text (mkTokenMeta 0 None b b) []); reflexivity.
Qed.

(** X1: a text made of white space only is one span, open to the end of
    the text, whatever the configuration: no matcher is consulted. *)
Theorem call_whitespace_only tk fuel (text : str) :
  text ≠ [] → Forall (fun c => isspace c = true) text →
  call tk fuel text = Ret [mkTokenMeta 0 None true true].
Proof. intros Hne Hall. by rewrite (call_one_run tk fuel text true). Qed.

Lemma call_whitespace_only_witness :
  call demo 0 [" "; "009"; "010"; " "]%char = Ret [mkTokenMeta 0 None true true].
Proof.
  apply (call_whitespace_only demo 0).
  - discriminate.
  - repeat constructor.
Defined.

(** X2: a text without white space is one run: [__call__] gives what
    [_tokenize] gives for the whole text, started at position 0 on an
    empty document with [space_after] unset, be it a document, an
    exception or a loop that does not end. *)
Theorem call_single_run tk fuel (text : str) :
  text ≠ [] → Forall (fun c => isspace c = false) text →
  call tk fuel text
  = _tokenize tk fuel text (mkTokenMeta 0 None false false) [].
Proof. intros Hne Hall. by rewrite (call_one_run tk fuel text false). Qed.

Lemma call_single_run_witness :
  call demo 9 (py "((a-b)") 
  = _tokenize demo 9 (py "((a-b)") (mkTokenMeta 0 None false false) [].
Proof.
  apply (call_single_run demo 9).
  - discriminate.
  - repeat constructor.
Defined.

(** A run on which no rule matches stays whole. *)
Lemma tokenize_unsplit tk fuel (s : str) tm doc :
  s ≠ [] → find_prefix tk s = 0 → find_suffix tk s = 0 →
  special_cases tk !! s = None → find_infix tk s = [] →
  _tokenize tk (S fuel) s tm doc
  = Ret (doc ++ [mkTokenMeta (start_pos tm)
                             (Some (start_pos tm + len s - 1))
                             (space_after tm) false]).
Proof.
  intros Hs Hp Hf Hk Hi. unfold _tokenize.
  rewrite split_affixes_unfold by done. simpl. rewrite Hp, Hf. simpl.
  unfold resolve. simpl.
  rewrite (proj2 (in_special_false tk s) Hk), Hi. simpl.
  rewrite (attach_tokens_snoc doc _ []
             (plain (start_pos tm) (start_pos tm + len s - 1))).
  - reflexivity.
  - unfold run_spans, core_span; simpl.
    by rewrite (proj2 (nonempty_true_iff s) Hs).
Qed.

(** X3: a text without white space in which no prefix, suffix, exception or
    infix is found is a single span from 0 to its last index; its end is
    written out, the open end being kept for white space. *)
Theorem call_unsplit_text tk fuel (text : str) :
  text ≠ [] → Forall (fun c => isspace c = false) text →
  find_prefix tk text = 0 → find_suffix tk text = 0 →
  special_cases tk !! text = None → find_infix tk text = [] →
  call tk (S fuel) text
  = Ret [mkTokenMeta 0 (Some (len text - 1)) false false].
Proof.
  intros Hne Hall Hp Hs Hk Hi.
  rewrite (call_one_run tk (S fuel) text false Hne Hall). unfold finish.
  cbn [is_space].
  by rewrite (tokenize_unsplit tk fuel text _ [] Hne Hp Hs Hk Hi).
Qed.

Lemma call_unsplit_text_witness :
  call demo 1 (py "apples")
  = Ret [mkTokenMeta 0 (Some (len (py "apples") - 1)) false false].
Proof.
  apply (call_unsplit_text demo 0 (py "apples")).
  - discriminate.
  - repeat constructor.
  - reflexivity.
  - reflexivity.
  - vm_compute. reflexivity.
  - reflexivity.
Defined.

(** ** An exception entry without sub-tokens *)

(** X5: a run whose exception entry is the empty list adds no span, and
    the fix-up of the last span then reaches outside the run: on an empty
    document [pop] raises [IndexError], otherwise the last span of the
    document, which belongs to an earlier run, gets the [space_after] of
    this run. *)
Theorem empty_entry_pops_earlier_span tk fuel (s : str) tm :
  s ≠ [] → special_cases tk !! s = Some [] →
  _tokenize tk (S fuel) s tm [] = Raise IndexError
  ∧ ∀ doc t, _tokenize tk (S fuel) s tm (doc ++ [t])
             = Ret (doc ++ [set_space_after t (space_after tm)]).
Proof.
  intros Hs Hk. unfold _tokenize.
  rewrite (split_affixes_key tk fuel s _ [] Hs Hk). simpl. split.
  - reflexivity.
  - intros doc t. unfold _attach_tokens, run_spans. simpl.
    rewrite app_nil_r, pop_snoc. reflexivity.
Qed.

Lemma empty_entry_pops_earlier_span_witness :
  _tokenize (mkTokenizer None None None {[ py "x" := [] ]}) 1 (py "x")
            (mkTokenMeta 2 (Some 2) true false) []
  = Raise IndexError
  ∧ ∀ doc t,
      _tokenize (mkTokenizer None None None {[ py "x" := [] ]}) 1 (py "x")
                (mkTokenMeta 2 (Some 2) true false) (doc ++ [t])
      = Ret (doc ++ [set_space_after t true]).
Proof.
  apply (empty_entry_pops_earlier_span
           (mkTokenizer None None None {[ py "x" := [] ]}) 0 (py "x")
           (mkTokenMeta 2 (Some 2) true false)).
  - discriminate.
  - vm_compute. reflexivity.
Defined.

(** ** What every run is made of *)

(** A property kept by both stripping steps holds when the loop ends. *)
Lemma affix_loop_keeps tk (I : affix_state → Prop) :
  (∀ st, I st → I (strip_prefix tk st)) →
  (∀ st, I st → I (strip_suffix tk st)) →
  ∀ fuel st st', I st → affix_loop tk fuel st = Ret st' → I st'.
Proof.
  intros Hpre Hsuf. induction fuel as [|fuel IH]; intros st st' Hst Hr;
    [done|].
  simpl in Hr.
  destruct (truthy (find_prefix tk (af_substring st))
            || truthy (find_suffix tk (af_substring st))).
  - unfold affix_body in Hr.
    destruct (in_special tk (af_substring st)); [by inversion Hr; subst|].
    destruct (truthy (find_prefix tk (af_substring st))
              && in_special tk (af_substring (strip_prefix tk st))).
    + inversion Hr; subst. by apply Hpre.
    + eapply IH; [|exact Hr]. by apply Hsuf, Hpre.
  - by inversion Hr; subst.
Qed.

Lemma pop_inv {A} (l front : list A) (x : A) :
  pop l = Ret (front, x) → l = front ++ [x].
Proof.
  unfold pop. destruct (last l) as [y|] eqn:El; [|done].
  intros H. inversion H; subst.
  apply last_Some in El as [l' ->]. by rewrite removelast_last.
Qed.

(** The document [_tokenize] returns: the document it was given and the
    spans of the run, the last of all with a new [space_after]. *)
Lemma tokenize_shape tk fuel s tm doc doc' :
  _tokenize tk fuel s tm doc = Ret doc' →
  ∃ sp front t,
    _split_affixes tk fuel s (start_pos tm) = Ret sp
    ∧ doc ++ run_spans sp = front ++ [t]
    ∧ doc' = front ++ [set_space_after t (space_after tm)].
Proof.
  unfold _tokenize. intros H.
  apply bind_ret_inv in H as (sp & Hsp & Hat).
  unfold _attach_tokens in Hat.
  apply bind_ret_inv in Hat as ([front t] & Hpop & Hret).
  apply pop_inv in Hpop. inversion Hret. eauto 6.
Qed.

(** A property of spans that does not depend on [space_after] and holds of
    the spans of the run holds of the new document. *)
Lemma tokenize_keeps (R : TokenMeta → Prop) tk fuel s tm doc doc' :
  (∀ t b, R t → R (set_space_after t b)) →
  (∀ sp, _split_affixes tk fuel s (start_pos tm) = Ret sp →
         Forall R (run_spans sp)) →
  Forall R doc → _tokenize tk fuel s tm doc = Ret doc' → Forall R doc'.
Proof.
  intros Hset Hrun Hdoc Htok.
  destruct (tokenize_shape _ _ _ _ _ _ Htok) as (sp & front & t & Hsp & Heq & ->).
  assert (Hall : Forall R (front ++ [t])).
  { rewrite <- Heq. apply Forall_app. split; [done | by apply Hrun]. }
  apply Forall_app in Hall as [Hf Ht]. apply Forall_app. split; [done|].
  apply Forall_cons in Ht as [Ht _]. constructor; [by apply Hset | constructor].
Qed.

Section made_of_plain.
Variable P : TokenMeta → Prop.
Hypothesis HP : ∀ a b, P (plain a b).

Lemma special_spans_all orths : ∀ pos, Forall P (special_spans orths pos).
Proof. induction orths; intros pos; simpl; constructor; auto. Qed.

Lemma emit_piece_all piece st :
  Forall P (ix_metas st) → Forall P (ix_metas (emit_piece piece st)).
Proof.
  intros H. unfold emit_piece. destruct (nonempty piece); [|done]. simpl.
  apply Forall_app. split; [done|]. constructor; [apply HP | constructor].
Qed.

Lemma infix_loop_all s ms : ∀ st,
  Forall P (ix_metas st) → Forall P (ix_metas (infix_loop s st ms)).
Proof.
  induction ms as [|m ms IH]; intros st H; simpl; [done|].
  apply IH. unfold infix_step; simpl. by do 2 apply emit_piece_all.
Qed.

Lemma infix_spans_all s pos ms : Forall P (infix_spans s pos ms).
Proof.
  unfold infix_spans, infix_rest.
  assert (H : Forall P (ix_metas (infix_loop s (mkInfix 0 pos 0 []) ms))).
  { apply infix_loop_all. constructor. }
  destruct (nonempty _); [|done]. simpl.
  apply Forall_app. split; [done|]. constructor; [apply HP | constructor].
Qed.

Lemma core_span_all s pos : Forall P (core_span s pos).
Proof.
  unfold core_span. destruct (nonempty s); repeat constructor. apply HP.
Qed.

Lemma strip_prefix_all tk st :
  Forall P (af_prefixes st) ∧ Forall P (af_suffixes st) →
  Forall P (af_prefixes (strip_prefix tk st))
  ∧ Forall P (af_suffixes (strip_prefix tk st)).
Proof.
  intros [Hp Hs]. unfold strip_prefix, _get_prefix_token_meta.
  destruct (truthy (find_prefix tk (af_substring st))); [|done].
  destruct (find_prefix tk (af_substring st) =? 0); simpl; [done|].
  split; [|done]. apply Forall_app. split; [done|].
  constructor; [apply HP | constructor].
Qed.

Lemma strip_suffix_all tk st :
  Forall P (af_prefixes st) ∧ Forall P (af_suffixes st) →
  Forall P (af_prefixes (strip_suffix tk st))
  ∧ Forall P (af_suffixes (strip_suffix tk st)).
Proof.
  intros [Hp Hs]. unfold strip_suffix, _get_suffix_token_meta.
  destruct (truthy (find_suffix tk (af_substring st))); [|done].
  destruct (find_suffix tk (af_substring st) =? 0); simpl; [done|].
  split; [done|]. apply Forall_app. split; [done|].
  constructor; [apply HP | constructor].
Qed.

Lemma resolve_all tk st sp :
  Forall P (af_prefixes st) ∧ Forall P (af_suffixes st) →
  resolve tk st = Ret sp → Forall P (run_spans sp).
Proof.
  intros [Hp Hs]. unfold resolve.
  assert (Hrev : Forall P (reverse (af_suffixes st))).
  { by apply Forall_reverse. }
  destruct (in_special tk (af_substring st)).
  - unfold _get_special_cases_token_meta.
    destruct (special_cases tk !! af_substring st) as [orths|]; [|done].
    simpl. intros H. inversion H; subst. unfold run_spans; simpl.
    repeat (apply Forall_app; split);
      auto using special_spans_all, Forall_nil_2.
  - destruct (nonempty (find_infix tk (af_substring st))); simpl;
      intros H; inversion H; subst; unfold run_spans; simpl;
      repeat (apply Forall_app; split);
      auto using core_span_all, Forall_nil_2.
  apply infix_spans_all.
Qed.

(** Whatever the configuration, every span of a run was made by [plain]. *)
Lemma run_spans_all tk fuel s p0 sp :
  _split_affixes tk fuel s p0 = Ret sp → Forall P (run_spans sp).
Proof.
  unfold _split_affixes. destruct (nonempty s).
  - intros H. apply bind_ret_inv in H as (st & Hloop & Hres).
    eapply resolve_all; [|exact Hres].
    eapply (affix_loop_keeps tk
              (fun st => Forall P (af_prefixes st)
                         ∧ Forall P (af_suffixes st)));
      [apply strip_prefix_all | apply strip_suffix_all | | exact Hloop].
    simpl. split; constructor.
  - simpl. intros H. inversion H; subst. unfold run_spans; simpl.
    apply Forall_app. split; [apply core_span_all | constructor].
Qed.

End made_of_plain.

(** ** The open end *)

Lemma tokenize_closed tk fuel s tm doc doc' :
  Forall (fun t => end_pos t ≠ None) doc →
  _tokenize tk fuel s tm doc = Ret doc' →
  Forall (fun t => end_pos t ≠ None) doc'.
Proof.
  apply (tokenize_keeps (fun t => end_pos t ≠ None)).
  - intros t b H. exact H.
  - intros sp Hsp. eapply run_spans_all; [|exact Hsp]. done.
Qed.

Lemma close_token_closed tk fuel text st i b st1 :
  Forall (fun t => end_pos t ≠ None) (sc_doc st) →
  close_token tk fuel text st i b = Ret st1 →
  Forall (fun t => end_pos t ≠ None) (sc_doc st1).
Proof.
  intros Hdoc. unfold close_token.
  destruct (negb (eqb b (sc_is_space st))); [|by intros H; inversion H; subst].
  intros H. apply bind_ret_inv in H as (doc & Hfin & H).
  apply bind_ret_inv in H as (sp & _ & H). inversion H; subst. simpl.
  unfold finish in Hfin. simpl in Hfin. destruct (sc_is_space st).
  - inversion Hfin; subst. apply Forall_app. split; [done|].
    by repeat constructor.
  - by eapply tokenize_closed.
Qed.

Lemma last_token_open tk fuel text st i b st2 :
  Forall (fun t => end_pos t ≠ None) (sc_doc st) →
  last_token tk fuel text st i b = Ret st2 →
  Forall (fun t => end_pos t ≠ None) (sc_doc st2)
  ∨ ∃ t, sc_doc st2 = sc_doc st ++ [t] ∧ end_pos t = None
         ∧ is_space t = true.
Proof.
  intros Hdoc. unfold last_token.
  destruct ((i =? len text - 1) && (sc_pos st <=? i));
    [|by intros H; inversion H; subst; left].
  intros H. apply bind_ret_inv in H as (doc & Hfin & H).
  inversion H; subst. simpl.
  unfold finish in Hfin. simpl in Hfin. destruct (sc_is_space st) eqn:Es.
  - inversion Hfin; subst. right. eexists. by repeat split.
  - left. by eapply tokenize_closed.
Qed.

Lemma scan_loop_open tk fuel text :
  ∀ rest i st st',
    len text = i + len rest →
    Forall (fun t => end_pos t ≠ None) (sc_doc st) →
    scan_loop tk fuel text i rest st = Ret st' →
    Forall (fun t => end_pos t ≠ None) (sc_doc st')
    ∨ ∃ front t, sc_doc st' = front ++ [t]
                 ∧ Forall (fun t => end_pos t ≠ None) front
                 ∧ end_pos t = None ∧ is_space t = true.
Proof.
  induction rest as [|c rest IH]; intros i st st' Hlen Hdoc Hr.
  - inversion Hr; subst. by left.
  - simpl in Hr. apply bind_ret_inv in Hr as (st1 & H1 & Hr).
    apply bind_ret_inv in Hr as (st2 & H2 & Hr).
    pose proof (close_token_closed _ _ _ _ _ _ _ Hdoc H1) as Hdoc1.
    assert (Hl : len (c :: rest) = 1 + len rest) by (unfold len; simpl; lia).
    destruct rest as [|c' rest].
    + inversion Hr; subst.
      destruct (last_token_open _ _ _ _ _ _ _ Hdoc1 H2)
        as [Hc | (t & Heq & He & Hs)]; [by left|].
      right. exists (sc_doc st1), t. done.
    + rewrite last_token_skip in H2.
      2:{ unfold len in *; simpl in *. lia. }
      inversion H2; subst. eapply IH; [|exact Hdoc1|exact Hr]. lia.
Qed.

(** X4: whatever the configuration, a span of a document of [__call__] has
    the open end [None] only if it is a white space span and the last span
    of the document: the open end stands for white space at the end of the
    text, and the end of every other span is written out. *)
Theorem open_end_is_last_whitespace tk fuel (text : str) doc :
  call tk fuel text = Ret doc →
  ∀ i t, doc !! i = Some t → end_pos t = None →
         is_space t = true ∧ length doc = S i.
Proof.
  unfold call. intros H.
  apply bind_ret_inv in H as (c0 & _ & H).
  apply bind_ret_inv in H as (st & Hscan & H). inversion H; subst.
  assert (Hlen : len text = 0 + len text) by lia.
  destruct (scan_loop_open tk fuel text text 0
              (mkScan 0 (isspace c0) []) st Hlen (Forall_nil_2 _) Hscan)
    as [Hc | (front & t0 & Heq & Hf & He & Hs)].
  - intros i t Hi He. rewrite Forall_lookup in Hc. by destruct (Hc i t Hi).
  - intros i t Hi He'. rewrite Heq in *.
    destruct (decide (i < length front)%nat) as [Hlt | Hge].
    + rewrite lookup_app_l in Hi by done.
      rewrite Forall_lookup in Hf. by destruct (Hf i t Hi).
    + rewrite lookup_app_r in Hi by lia.
      destruct (i - length front)%nat as [|k] eqn:Ek; simpl in Hi; [|done].
      inversion Hi; subst t0. split; [done|].
      rewrite length_app. simpl. lia.
Qed.

Lemma open_end_is_last_whitespace_witness :
  is_space (mkTokenMeta 2 None true true) = true
  ∧ length [mkTokenMeta 0 (Some 0) true false; mkTokenMeta 2 None true true]
    = 2%nat.
Proof.
  apply (open_end_is_last_whitespace demo 4 (py "a  ")
           [mkTokenMeta 0 (Some 0) true false; mkTokenMeta 2 None true true]).
  - vm_compute. reflexivity.
  - reflexivity.
  - reflexivity.
Defined.

(** ** The spans of a run, for a well-formed configuration *)

(** X6: for a well-formed configuration and a run that is not empty,
    [_split_affixes] returns, and the spans of the run in the order
    [_attach_tokens] appends them (prefixes, exception sub-tokens or core or
    infix pieces, suffixes from the inside out) lie end to end from the
    start of the run to its end: no gap, no overlap, nothing outside. *)
Theorem run_spans_tile_run tk fuel (s : str) p0 :
  wf_config tk → s ≠ [] → (length s < fuel)%nat →
  ∃ sp, _split_affixes tk fuel s p0 = Ret sp
        ∧ tiles p0 (run_spans sp) (p0 + len s).
Proof.
  intros Hwf Hs Hfuel.
  exact (split_affixes_ok tk fuel s p0 Hwf Hs (fuel_enough _ _ Hfuel)).
Qed.

Lemma run_spans_tile_run_witness :
  ∃ sp, _split_affixes demo 9 (py "((a-b))") 3 = Ret sp
        ∧ tiles 3 (run_spans sp) (3 + len (py "((a-b))")).
Proof.
  apply (run_spans_tile_run demo 9 (py "((a-b))") 3 demo_wf).
  - discriminate.
  - vm_compute. lia.
Defined.

Lemma tokenize_tiles tk fuel s tm doc :
  wf_config tk → s ≠ [] → len s < Z.of_nat fuel →
  ∃ sp front c e,
    _split_affixes tk fuel s (start_pos tm) = Ret sp
    ∧ run_spans sp = front ++ [plain c e]
    ∧ tiles (start_pos tm) (front ++ [plain c e]) (start_pos tm + len s)
    ∧ _tokenize tk fuel s tm doc
      = Ret (doc ++ front ++ [set_space_after (plain c e) (space_after tm)]).
Proof.
  intros Hwf Hs Hfuel.
  destruct (split_affixes_ok tk fuel s (start_pos tm) Hwf Hs Hfuel)
    as (sp & Hsp & Ht).
  pose proof (nonempty_pos s Hs) as Hpos.
  destruct (tiles_snoc_inv _ _ _ Ht) as (front & c & e & Heq & _).
  { eapply tiles_nonempty; [eassumption | lia]. }
  exists sp, front, c, e. split; [done|]. split; [done|].
  split; [by rewrite <- Heq|].
  unfold _tokenize. rewrite Hsp. simpl. by apply attach_tokens_snoc.
Qed.

Lemma tiles_bounds a l b :
  tiles a l b →
  Forall (fun t => ∃ e, t = plain (start_pos t) e ∧ a ≤ start_pos t
                        ∧ start_pos t ≤ e + 1 ∧ e + 1 ≤ b) l.
Proof.
  induction 1 as [|a e l b Hle Hl IH]; constructor.
  - exists e. simpl. pose proof (tiles_le _ _ _ Hl). repeat split; lia.
  - eapply Forall_impl; [exact IH|]. simpl.
    intros t (e' & ? & ? & ? & ?). exists e'. repeat split; try done; lia.
Qed.

(** ** Classes of characters *)

Lemma all_class_one (text : str) i c :
  0 ≤ i → text !! Z.to_nat i = Some c →
  all_class text i (i + 1) (isspace c).
Proof.
  intros Hi Hc j c' Hj1 Hj2 Hl.
  assert (j = i) as -> by lia. congruence.
Qed.

Lemma all_class_sub (text : str) a b a' b' cls :
  all_class text a b cls → a ≤ a' → b' ≤ b → all_class text a' b' cls.
Proof. intros H Ha Hb j c Hj1 Hj2. apply H; lia. Qed.

Lemma all_class_snoc (text : str) a i c cls :
  0 ≤ i → all_class text a i cls → text !! Z.to_nat i = Some c →
  isspace c = cls → all_class text a (i + 1) cls.
Proof.
  intros Hi H Hc Hcls j c' Hj1 Hj2 Hl.
  destruct (decide (j = i)) as [->|]; [congruence|].
  apply (H j c'); [lia | lia | done].
Qed.

Lemma slice_class (text : str) a b cls :
  0 ≤ a → a ≤ b → b ≤ len text → all_class text a b cls →
  Forall (fun c => isspace c = cls) (slice text (Some a) (Some b)).
Proof.
  intros Ha Hab Hb Hall. rewrite slice_inside by lia.
  apply Forall_lookup. intros k c Hk.
  apply lookup_take_Some in Hk as [Hk Hlt]. rewrite lookup_drop in Hk.
  apply (Hall (a + Z.of_nat k) c); [lia | lia |].
  replace (Z.to_nat (a + Z.of_nat k)) with (Z.to_nat a + k)%nat by lia.
  done.
Qed.

(** ** A scheme for properties of every span of a document *)

(** For a well-formed configuration a property [Q] of spans holds of every
    span of the document once it holds of the span of a white space run
    closed inside the text, of the span of a white space run at the end of
    the text, and of the spans of a run of other characters; [E] is what is
    known of the spans a run is made of. *)
Section scan_spans.
Variables (tk : Tokenizer) (fuel : nat) (text : str).
Variables (E Q : TokenMeta → Prop).
Hypothesis Hwf : wf_config tk.
Hypothesis Hfuel : len text < Z.of_nat fuel.
Hypothesis HE : ∀ s p0 sp,
  _split_affixes tk fuel s p0 = Ret sp → Forall E (run_spans sp).
Hypothesis Hmid : ∀ pos i,
  0 ≤ pos → pos < i → i < len text →
  all_class text pos i true → all_class text i (i + 1) false →
  Q (mkTokenMeta pos (Some (i - 1)) false true).
Hypothesis Hend : ∀ pos,
  0 ≤ pos → pos < len text → all_class text pos (len text) true →
  Q (mkTokenMeta pos None true true).
Hypothesis Hrun : ∀ p0 b sa front c e,
  0 ≤ p0 → p0 < b → b ≤ len text → all_class text p0 b false →
  (if sa : bool then b < len text ∧ all_class text b (b + 1) true
   else b = len text) →
  tiles p0 (front ++ [plain c e]) b → Forall E (front ++ [plain c e]) →
  Forall Q (front ++ [set_space_after (plain c e) sa]).

Lemma run_spans_Q st b sa :
  0 ≤ sc_pos st → sc_pos st < b → b ≤ len text →
  all_class text (sc_pos st) b false →
  (if sa : bool then b < len text ∧ all_class text b (b + 1) true
   else b = len text) →
  Forall Q (sc_doc st) →
  ∀ run e', len run = b - sc_pos st →
    ∃ doc, _tokenize tk fuel run (mkTokenMeta (sc_pos st) e' sa false)
                     (sc_doc st) = Ret doc
           ∧ Forall Q doc.
Proof.
  intros H0 Hlt Hb Hcls Hsa Hdoc run e' Hrun'.
  destruct (tokenize_tiles tk fuel run
              (mkTokenMeta (sc_pos st) e' sa false) (sc_doc st) Hwf)
    as (sp & front & c & e & Hsp & Heq & Ht & Htok).
  { intros ->. unfold len in Hrun'; simpl in Hrun'. lia. }
  { lia. }
  simpl in *. exists (sc_doc st ++ front ++ [set_space_after (plain c e) sa]).
  split; [done|]. apply Forall_app. split; [done|].
  eapply (Hrun (sc_pos st) b); try done.
  - eapply tiles_cast; [exact Ht | reflexivity | lia].
  - rewrite <- Heq. by eapply HE.
Qed.

Lemma close_token_spans st i c :
  0 ≤ i → text !! Z.to_nat i = Some c →
  class_inv text i st → Forall Q (sc_doc st) →
  ∃ st1, close_token tk fuel text st i (isspace c) = Ret st1
         ∧ class_inv text (i + 1) st1 ∧ Forall Q (sc_doc st1).
Proof.
  intros Hi Hc (Hp0 & Hpi & Hcls & Hat) Hdoc.
  assert (Hin : i < len text).
  { apply lookup_lt_Some in Hc. unfold len. lia. }
  unfold close_token.
  destruct (eqb (isspace c) (sc_is_space st)) eqn:Eq; simpl.
  - apply eqb_prop in Eq. exists st. split; [done|]. split; [|done].
    repeat split; try done; [lia|]. by eapply all_class_snoc.
  - apply eqb_false_iff in Eq.
    assert (Hlt : sc_pos st < i).
    { destruct (decide (sc_pos st = i)) as [He|]; [|lia].
      rewrite <- He in Hc. specialize (Hat c Hc). congruence. }
    assert (Hnext : ∀ p, 0 ≤ p →
      ∃ b, (if p <? len text
            then index text p ≫= (fun c0 => mret (isspace c0))
            else mret (sc_is_space st)) = Ret b
           ∧ ∀ c0, text !! Z.to_nat p = Some c0 → b = isspace c0).
    { intros p Hp. destruct (p <? len text) eqn:El.
      - destruct (lookup_inside text p) as [c' Hc']; [lia | lia |].
        rewrite (index_lookup _ _ _ Hp Hc'). simpl.
        eexists; split; [reflexivity|]. intros c0 Hc0. congruence.
      - eexists. split; [done|]. intros c0 Hc0.
        apply lookup_lt_Some in Hc0. unfold len in *. lia. }
    unfold finish; simpl.
    destruct (sc_is_space st) eqn:Es.
    + assert (Hics : isspace c = false) by (destruct (isspace c); done).
      rewrite Hics. simpl.
      destruct (Hnext i Hi) as (b & Hb & Hbc). rewrite Hb. simpl.
      eexists; split; [reflexivity|]. simpl. split.
      * repeat split; simpl; try lia; [|done].
        rewrite (Hbc c Hc), Hics. rewrite <- Hics. by apply all_class_one.
      * apply Forall_app. split; [done|]. constructor; [|constructor].
        apply Hmid; try done. rewrite <- Hics. by apply all_class_one.
    + assert (Hics : isspace c = true) by (destruct (isspace c); done).
      rewrite Hics.
      assert (Hsa : i < len text ∧ all_class text i (i + 1) true).
      { split; [done|]. rewrite <- Hics. by apply all_class_one. }
      assert (Hlen : len (slice text (Some (sc_pos st)) (Some i))
                     = i - sc_pos st).
      { rewrite len_slice, !clip_id by lia. lia. }
      destruct (run_spans_Q st i true Hp0 Hlt (Z.lt_le_incl _ _ Hin) Hcls
                  Hsa Hdoc _ (Some (i - 1)) Hlen) as (doc & Hdoc' & HQ).
      rewrite Hdoc'. simpl.
      assert (Hi1 : 0 ≤ i + 1) by lia.
      destruct (Hnext (i + 1) Hi1) as (b & Hb & Hbc). rewrite Hb. simpl.
      eexists; split; [reflexivity|]. simpl. split; [|done].
      repeat split; simpl; try lia; [|done].
      intros j c' Hj1 Hj2. lia.
Qed.

Lemma last_token_spans st i c :
  i = len text - 1 → text !! Z.to_nat i = Some c →
  class_inv text (i + 1) st → Forall Q (sc_doc st) →
  ∃ st2, last_token tk fuel text st i (isspace c) = Ret st2
         ∧ Forall Q (sc_doc st2).
Proof.
  intros Hi Hc (Hp0 & Hpi & Hcls & Hat) Hdoc.
  assert (Hi0 : 0 ≤ i).
  { apply lookup_lt_Some in Hc. unfold len in *. lia. }
  unfold last_token. rewrite (proj2 (Z.eqb_eq i (len text - 1)) Hi). simpl.
  destruct (sc_pos st <=? i) eqn:El; [|by exists st].
  apply Z.leb_le in El.
  assert (Hb : isspace c = sc_is_space st).
  { apply (Hcls i c); [done | lia | done]. }
  rewrite Hb. replace (i + 1) with (len text) in Hcls by lia.
  unfold finish; simpl. destruct (sc_is_space st) eqn:Es; simpl.
  - eexists; split; [reflexivity|]. simpl.
    apply Forall_app. split; [done|]. constructor; [|constructor].
    apply Hend; [done | lia | done].
  - assert (Hlt : sc_pos st < len text) by lia.
    assert (Hlen : len (slice text (Some (sc_pos st)) None)
                   = len text - sc_pos st).
    { rewrite len_slice_from, clip_id by lia. lia. }
    destruct (run_spans_Q st (len text) false Hp0 Hlt (Z.le_refl _) Hcls
                eq_refl Hdoc _ None Hlen) as (doc & Hdoc' & HQ).
    rewrite Hdoc'. simpl. eexists; split; [reflexivity | done].
Qed.

Lemma scan_loop_spans :
  ∀ rest i st,
    0 ≤ i → rest ≠ [] → drop (Z.to_nat i) text = rest →
    class_inv text i st → Forall Q (sc_doc st) →
    ∃ st', scan_loop tk fuel text i rest st = Ret st'
           ∧ Forall Q (sc_doc st').
Proof.
  induction rest as [|c rest IH]; intros i st Hi Hne Hd Hinv Hdoc; [done|].
  assert (Hc : text !! Z.to_nat i = Some c).
  { transitivity (drop (Z.to_nat i) text !! 0%nat).
    - rewrite lookup_drop. f_equal. lia.
    - by rewrite Hd. }
  assert (Hlen : len text = i + 1 + len rest).
  { pose proof (length_drop text (Z.to_nat i)) as Hl. rewrite Hd in Hl.
    apply lookup_lt_Some in Hc. unfold len. simpl in Hl. lia. }
  assert (Hd' : drop (Z.to_nat (i + 1)) text = rest).
  { replace (Z.to_nat (i + 1)) with (Z.to_nat i + 1)%nat by lia.
    rewrite <- drop_drop, Hd. done. }
  simpl.
  destruct (close_token_spans st i c Hi Hc Hinv Hdoc)
    as (st1 & H1 & Hinv1 & Hdoc1).
  rewrite H1. simpl.
  destruct rest as [|c' rest].
  - assert (Hlast : i = len text - 1).
    { unfold len in Hlen; simpl in Hlen. unfold len. lia. }
    destruct (last_token_spans st1 i c Hlast Hc Hinv1 Hdoc1)
      as (st2 & H2 & Hdoc2).
    rewrite H2. simpl. exists st2. done.
  - rewrite last_token_skip.
    2:{ unfold len in *; simpl in *. lia. }
    simpl. apply IH; [lia | done | done | done | done].
Qed.

Lemma call_spans :
  text ≠ [] → ∃ doc, call tk fuel text = Ret doc ∧ Forall Q doc.
Proof.
  intros Hne. unfold call.
  destruct (lookup_inside text 0) as [c0 H0]; [lia | by apply nonempty_pos |].
  rewrite (index_lookup _ _ _ (Z.le_refl 0) H0). simpl.
  assert (Hinv : class_inv text 0 (mkScan 0 (isspace c0) [])).
  { repeat split; simpl; try lia.
    - intros j c Hj1 Hj2. lia.
    - intros c Hc. congruence. }
  destruct (scan_loop_spans text 0 (mkScan 0 (isspace c0) [])
              (Z.le_refl 0) Hne eq_refl Hinv (Forall_nil_2 _))
    as (st & Hst & HQ).
  rewrite Hst. simpl. exists (sc_doc st). done.
Qed.

End scan_spans.

(** ** The flags of a span and the characters of the text *)

Lemma span_text_plain text a e :
  span_text text (plain a e) = slice text (Some a) (Some (e + 1)).
Proof. reflexivity. Qed.

(** X7: for a well-formed configuration [is_space] tells the class of every
    character of a span: a white space span holds white space only, and a
    span of a run that went through [_tokenize] holds none. *)
Theorem span_classes tk fuel (text : str) :
  wf_config tk → text ≠ [] → (length text < fuel)%nat →
  ∃ doc, call tk fuel text = Ret doc
         ∧ ∀ t, t ∈ doc →
                Forall (fun c => isspace c = is_space t) (span_text text t).
Proof.
  intros Hwf Hne Hfuel.
  destruct (call_spans tk fuel text (fun _ => True)
              (fun t => Forall (fun c => isspace c = is_space t)
                               (span_text text t)) Hwf
              (fuel_enough _ _ Hfuel)) as (doc & Hcall & HQ); try done.
  - intros s p0 sp _. by apply Forall_true.
  - intros pos i H0 Hlt Hi Hcls _. unfold span_text; simpl. unfold Z.succ.
    replace (i - 1 + 1) with i by lia. apply slice_class; [lia | lia | lia | done].
  - intros pos H0 Hlt Hcls. unfold span_text; simpl.
    rewrite <- slice_to_end by lia.
    apply slice_class; [lia | lia | lia | done].
  - intros p0 b sa front c e H0 Hlt Hb Hcls _ Ht _.
    apply tiles_bounds in Ht. apply Forall_app in Ht as [Hf Hl].
    apply Forall_app. split.
    + eapply Forall_impl; [exact Hf|]. simpl.
      intros t (e' & Heq & ? & ? & ?). rewrite Heq, span_text_plain. simpl.
      apply slice_class; [lia | lia | lia |].
      eapply all_class_sub; [exact Hcls | lia | lia].
    + apply Forall_cons in Hl as [(e' & Heq & ? & ? & ?) _].
      simpl in *. inversion Heq; subst e'.
      constructor; [|constructor].
      change (span_text text (set_space_after (plain c e) sa))
        with (slice text (Some c) (Some (e + 1))). simpl.
      apply slice_class; [lia | lia | lia |].
      eapply all_class_sub; [exact Hcls | lia | lia].
  - exists doc. split; [done|]. intros t Ht.
    rewrite Forall_forall in HQ. by apply HQ.
Qed.

Lemma span_classes_witness :
  ∃ doc, call demo 30 (py " (I don't  love-apples) ") = Ret doc
         ∧ ∀ t, t ∈ doc →
                Forall (fun c => isspace c = is_space t)
                       (span_text (py " (I don't  love-apples) ") t).
Proof.
  apply (span_classes demo 30 (py " (I don't  love-apples) ") demo_wf).
  - discriminate.
  - vm_compute. lia.
Defined.

(** ** Spans that hold a character *)

Lemma special_spans_nonempty orths : ∀ pos,
  Forall (fun o : str => o ≠ []) orths →
  Forall span_nonempty (special_spans orths pos).
Proof.
  induction orths as [|o orths IH]; intros pos Hall; simpl; [constructor|].
  apply Forall_cons in Hall as [Ho Hall]. constructor; [|by apply IH].
  pose proof (nonempty_pos o Ho). unfold span_nonempty; simpl. lia.
Qed.

Lemma emit_piece_nonempty piece st :
  Forall span_nonempty (ix_metas st) →
  Forall span_nonempty (ix_metas (emit_piece piece st)).
Proof.
  intros H. unfold emit_piece. destruct (nonempty piece) eqn:E; [|done].
  apply nonempty_len in E. simpl.
  apply Forall_app. split; [done|]. constructor; [|constructor].
  unfold span_nonempty; simpl. lia.
Qed.

Lemma infix_loop_nonempty s ms : ∀ st,
  Forall span_nonempty (ix_metas st) →
  Forall span_nonempty (ix_metas (infix_loop s st ms)).
Proof.
  induction ms as [|m ms IH]; intros st H; simpl; [done|].
  apply IH. unfold infix_step; simpl. by do 2 apply emit_piece_nonempty.
Qed.

Lemma infix_spans_nonempty_spans s pos ms :
  Forall span_nonempty (infix_spans s pos ms).
Proof.
  unfold infix_spans, infix_rest.
  assert (H : Forall span_nonempty
                (ix_metas (infix_loop s (mkInfix 0 pos 0 []) ms))).
  { apply infix_loop_nonempty. constructor. }
  destruct (nonempty _) eqn:E; [|done]. apply nonempty_len in E. simpl.
  apply Forall_app. split; [done|]. constructor; [|constructor].
  unfold span_nonempty; simpl. lia.
Qed.

Lemma core_span_nonempty_span s pos : Forall span_nonempty (core_span s pos).
Proof.
  unfold core_span. destruct (nonempty s) eqn:E; [|constructor].
  apply nonempty_len in E. constructor; [|constructor].
  unfold span_nonempty; simpl. lia.
Qed.

Lemma strip_prefix_nonempty tk st :
  search_ok (prefix_search tk) →
  Forall span_nonempty (af_prefixes st)
  ∧ Forall span_nonempty (af_suffixes st) →
  Forall span_nonempty (af_prefixes (strip_prefix tk st))
  ∧ Forall span_nonempty (af_suffixes (strip_prefix tk st)).
Proof.
  intros Hok [Hp Hs]. unfold strip_prefix, _get_prefix_token_meta.
  destruct (find_prefix_range tk (af_substring st) Hok) as [H0 _].
  destruct (truthy (find_prefix tk (af_substring st))); [|done].
  destruct (find_prefix tk (af_substring st) =? 0) eqn:E0; simpl; [done|].
  split; [|done]. apply Forall_app. split; [done|].
  constructor; [|constructor]. unfold span_nonempty; simpl. lia.
Qed.

Lemma strip_suffix_nonempty tk st :
  search_ok (suffix_search tk) →
  Forall span_nonempty (af_prefixes st)
  ∧ Forall span_nonempty (af_suffixes st) →
  Forall span_nonempty (af_prefixes (strip_suffix tk st))
  ∧ Forall span_nonempty (af_suffixes (strip_suffix tk st)).
Proof.
  intros Hok [Hp Hs]. unfold strip_suffix, _get_suffix_token_meta.
  destruct (find_suffix_range tk (af_substring st) Hok) as [H0 _].
  destruct (truthy (find_suffix tk (af_substring st))); [|done].
  destruct (find_suffix tk (af_substring st) =? 0) eqn:E0; simpl; [done|].
  split; [done|]. apply Forall_app. split; [done|].
  constructor; [|constructor]. unfold span_nonempty; simpl. lia.
Qed.

(** No span of a run is empty when the prefix and suffix matches lie inside
    the searched string and no exception has an empty sub-token. *)
Lemma run_spans_nonempty_spans tk fuel s p0 sp :
  search_ok (prefix_search tk) → search_ok (suffix_search tk) →
  orths_nonempty tk →
  _split_affixes tk fuel s p0 = Ret sp → Forall span_nonempty (run_spans sp).
Proof.
  intros Hpre Hsuf Horth. unfold _split_affixes. destruct (nonempty s).
  - intros H. apply bind_ret_inv in H as (st & Hloop & Hres).
    assert (Hst : Forall span_nonempty (af_prefixes st)
                  ∧ Forall span_nonempty (af_suffixes st)).
    { eapply (affix_loop_keeps tk
                (fun st => Forall span_nonempty (af_prefixes st)
                           ∧ Forall span_nonempty (af_suffixes st)));
        [intros; by apply strip_prefix_nonempty
        |intros; by apply strip_suffix_nonempty | | exact Hloop].
      simpl. split; constructor. }
    destruct Hst as [Hp Hs].
    assert (Hrev : Forall span_nonempty (reverse (af_suffixes st))).
    { by apply Forall_reverse. }
    unfold resolve in Hres. destruct (in_special tk (af_substring st)).
    + unfold _get_special_cases_token_meta in Hres.
      destruct (special_cases tk !! af_substring st) as [orths|] eqn:Ho;
        [|done].
      simpl in Hres. inversion Hres; subst. unfold run_spans; simpl.
      repeat (apply Forall_app; split); auto using Forall_nil_2.
      apply special_spans_nonempty. by eapply Horth.
    + destruct (nonempty (find_infix tk (af_substring st))); simpl in Hres;
        inversion Hres; subst; unfold run_spans; simpl;
        repeat (apply Forall_app; split);
        auto using Forall_nil_2, core_span_nonempty_span.
      apply infix_spans_nonempty_spans.
  - simpl. intros H. inversion H; subst. unfold run_spans; simpl.
    apply Forall_app. split; [apply core_span_nonempty_span | constructor].
Qed.

Lemma covers_count text a l b :
  covers (len text) a l b →
  Forall (fun t => start_pos t ≤ effective_end text t) l →
  Z.of_nat (length l) ≤ b - a.
Proof.
  induction 1 as [a | a t e l b Hs He Hle Hl IH | a t Hs He Hle];
    intros Hall; simpl.
  - lia.
  - apply Forall_cons in Hall as [Ht Hall]. specialize (IH Hall).
    unfold effective_end in Ht. rewrite He in Ht.
    pose proof (int_range (space_after t)). lia.
  - apply Forall_cons in Hall as [Ht _].
    unfold effective_end in Ht. rewrite He in Ht. lia.
Qed.

Lemma demo_orths : orths_nonempty demo.
Proof.
  intros s orths Hs. simpl in Hs.
  apply lookup_insert_Some in Hs as [[<- <-] | [_ Hs] ].
  - by repeat constructor.
  - apply lookup_singleton_Some in Hs as [<- <-]. by repeat constructor.
Qed.

(** X9: for a well-formed configuration without empty sub-tokens in its
    exceptions no span of a document is empty (its start is not after its
    end, the open end counting as the last index), so a document has at
    most as many spans as the text has characters. *)
Theorem spans_hold_characters tk fuel (text : str) :
  wf_config tk → orths_nonempty tk → text ≠ [] → (length text < fuel)%nat →
  ∃ doc, call tk fuel text = Ret doc
         ∧ Forall (fun t => start_pos t ≤ effective_end text t) doc
         ∧ (length doc ≤ length text)%nat.
Proof.
  intros Hwf Horth Hne Hfuel.
  destruct (call_spans tk fuel text span_nonempty
              (fun t => start_pos t ≤ effective_end text t) Hwf
              (fuel_enough _ _ Hfuel)) as (doc & Hcall & HQ); try done.
  - intros s p0 sp Hsp.
    eapply run_spans_nonempty_spans;
      [apply (wf_prefix tk Hwf) | apply (wf_suffix tk Hwf) | done | exact Hsp].
  - intros pos i H0 Hlt Hi _ _. unfold effective_end; simpl. lia.
  - intros pos H0 Hlt _. unfold effective_end; simpl. lia.
  - intros p0 b sa front c e _ _ _ _ _ Ht HE.
    apply tiles_bounds in Ht.
    apply Forall_app in Ht as [Hf Hl]. apply Forall_app in HE as [HEf HEl].
    apply Forall_app. split.
    + eapply Forall_impl; [apply Forall_and; split; [exact Hf | exact HEf] |].
      simpl. intros t [(e' & Heq & _) Hn]. rewrite Heq in *.
      unfold span_nonempty, effective_end in *. simpl in *. done.
    + apply Forall_cons in HEl as [Hn _]. constructor; [|constructor].
      unfold span_nonempty, effective_end in *. simpl in *. done.
  - exists doc. split; [done|]. split; [done|].
    destruct (call_ok tk fuel text Hwf (fuel_enough _ _ Hfuel) Hne)
      as (doc' & Hcall' & Hcov & _).
    rewrite Hcall in Hcall'. inversion Hcall'; subst doc'.
    pose proof (covers_count text 0 doc (len text) Hcov HQ).
    unfold len in *. lia.
Qed.

Lemma spans_hold_characters_witness :
  ∃ doc, call demo 30 (py " (I don't  love-apples) ") = Ret doc
         ∧ Forall (fun t => start_pos t
                            ≤ effective_end (py " (I don't  love-apples) ") t)
                  doc
         ∧ (length doc ≤ length (py " (I don't  love-apples) "))%nat.
Proof.
  apply (spans_hold_characters demo 30 (py " (I don't  love-apples) ")
           demo_wf demo_orths).
  - discriminate.
  - vm_compute. lia.
Defined.

(** ** The meaning of [space_after] *)

Lemma tiles_cons_inv a t l b :
  tiles a (t :: l) b → ∃ e, t = plain a e ∧ a ≤ e + 1 ∧ tiles (e + 1) l b.
Proof. inversion 1; subst. eauto. Qed.

Lemma tiles_nil_inv a b : tiles a [] b → a = b.
Proof. by inversion 1. Qed.

Lemma tiles_strict a l b :
  tiles a l b → l ≠ [] → Forall span_nonempty l → a < b.
Proof.
  intros Ht Hne Hall. destruct l as [|t l]; [done|].
  apply tiles_cons_inv in Ht as (e & -> & Hle & Hl).
  apply Forall_cons in Hall as [Hn _]. unfold span_nonempty in Hn.
  simpl in Hn. pose proof (tiles_le _ _ _ Hl). lia.
Qed.

(** In a run of spans that are not empty every span but the last ends
    before the last character of the run. *)
Lemma tiles_front_inside front : ∀ a c e b,
  tiles a (front ++ [plain c e]) b →
  Forall span_nonempty (front ++ [plain c e]) →
  Forall (fun t => ∃ e', t = plain (start_pos t) e' ∧ a ≤ e' + 1
                         ∧ e' + 1 < b) front
  ∧ e + 1 = b.
Proof.
  induction front as [|t front IH]; intros a c e b Ht Hall; simpl in *.
  - split; [constructor|].
    apply tiles_cons_inv in Ht as (e0 & Heq & Hle & Hl).
    apply tiles_nil_inv in Hl. inversion Heq; subst. done.
  - apply tiles_cons_inv in Ht as (e0 & -> & Hle & Hl).
    apply Forall_cons in Hall as [Hn Hall].
    destruct (IH _ _ _ _ Hl Hall) as [Hf Hb]. split; [|done].
    unfold span_nonempty in Hn; simpl in Hn.
    constructor.
    + exists e0. simpl. split; [done|]. split; [lia|].
      eapply tiles_strict; [exact Hl | by destruct front | done].
    + eapply Forall_impl; [exact Hf|]. simpl.
      intros u (e1 & ? & ? & ?). exists e1. repeat split; try done; lia.
Qed.

(** X8: for a well-formed configuration without empty sub-tokens in its
    exceptions [space_after] means what the docstring of [TokenMeta] says:
    a span that has an end has the flag set exactly when the character
    after its last one exists and is white space. *)
Theorem space_after_meaning tk fuel (text : str) :
  wf_config tk → orths_nonempty tk → text ≠ [] → (length text < fuel)%nat →
  ∃ doc, call tk fuel text = Ret doc
         ∧ ∀ t e, t ∈ doc → end_pos t = Some e →
                  (space_after t = true
                   ↔ ∃ c, text !! Z.to_nat (e + 1) = Some c
                          ∧ isspace c = true).
Proof.
  intros Hwf Horth Hne Hfuel.
  destruct (call_spans tk fuel text span_nonempty
              (fun t => ∀ e, end_pos t = Some e →
                 (space_after t = true
                  ↔ ∃ c, text !! Z.to_nat (e + 1) = Some c
                         ∧ isspace c = true)) Hwf
              (fuel_enough _ _ Hfuel)) as (doc & Hcall & HQ); try done.
  - intros s p0 sp Hsp.
    eapply run_spans_nonempty_spans;
      [apply (wf_prefix tk Hwf) | apply (wf_suffix tk Hwf) | done | exact Hsp].
  - intros pos i H0 Hlt Hi _ Hcls e He. simpl in *. inversion He; subst e.
    replace (i - 1 + 1) with i by lia. split; [done|].
    intros (c & Hc & Hws). rewrite (Hcls i c) in Hws; [done | lia | lia | done].
  - intros p0 b sa front c e H0 Hlt Hb Hcls Hsa Ht HE.
    destruct (tiles_front_inside _ _ _ _ _ Ht HE) as [Hf Hlast].
    apply Forall_app. split.
    + eapply Forall_impl; [exact Hf|]. simpl.
      intros t (e' & Heq & Hlo & Hhi) e0 He0. rewrite Heq in *. simpl in *.
      inversion He0; subst e0. split; [done|].
      intros (c0 & Hc0 & Hws).
      rewrite (Hcls (e' + 1) c0) in Hws; [done | lia | lia | done].
    + constructor; [|constructor]. intros e0 He0. simpl in *.
      inversion He0; subst e0. rewrite Hlast. destruct sa.
      * destruct Hsa as [Hbn Hcb].
        destruct (lookup_inside text b) as [c0 Hc0]; [lia | lia |].
        split; [|done]. intros _. exists c0. split; [done|].
        apply (Hcb b c0); [lia | lia | done].
      * split; [done|]. intros (c0 & Hc0 & _).
        apply lookup_lt_Some in Hc0. unfold len in *. lia.
  - exists doc. split; [done|]. intros t e Ht He.
    rewrite Forall_forall in HQ. by apply (HQ t Ht).
Qed.

Lemma space_after_meaning_witness :
  ∃ doc, call demo 30 (py " (I don't  love-apples) ") = Ret doc
         ∧ ∀ t e, t ∈ doc → end_pos t = Some e →
                  (space_after t = true
                   ↔ ∃ c, py " (I don't  love-apples) " !! Z.to_nat (e + 1)
                          = Some c
                          ∧ isspace c = true).
Proof.
  apply (space_after_meaning demo 30 (py " (I don't  love-apples) ")
           demo_wf demo_orths).
  - discriminate.
  - vm_compute. lia.
Defined.

(** ** Infix matches *)

Lemma emit_piece_grows piece st :
  ∃ more, ix_metas (emit_piece piece st) = ix_metas st ++ more.
Proof.
  unfold emit_piece. destruct (nonempty piece); simpl.
  - eauto.
  - exists []. by rewrite app_nil_r.
Qed.

Lemma infix_step_grows s st m :
  ∃ more, ix_metas (infix_step s st m) = ix_metas st ++ more.
Proof.
  unfold infix_step; simpl.
  destruct (emit_piece_grows
              (slice s (Some (m_start m)) (Some (m_end m)))
              (emit_piece (slice s (Some (ix_offset st)) (Some (m_start m)))
                          st)) as [more2 H2].
  destruct (emit_piece_grows
              (slice s (Some (ix_offset st)) (Some (m_start m))) st)
    as [more1 H1].
  exists (more1 ++ more2). by rewrite H2, H1, app_assoc.
Qed.

Lemma infix_loop_grows s ms : ∀ st,
  ∃ more, ix_metas (infix_loop s st ms) = ix_metas st ++ more.
Proof.
  induction ms as [|m ms IH]; intros st; simpl.
  - exists []. by rewrite app_nil_r.
  - destruct (IH (infix_step s st m)) as [more2 H2].
    destruct (infix_step_grows s st m) as [more1 H1].
    exists (more1 ++ more2). unfold infix_loop in *.
    by rewrite H2, H1, app_assoc.
Qed.

Lemma infix_rest_grows s st :
  ∃ more, ix_metas (infix_rest s st) = ix_metas st ++ more.
Proof.
  unfold infix_rest. destruct (nonempty _); simpl.
  - eauto.
  - exists []. by rewrite app_nil_r.
Qed.

(** The turn of the loop for a match that is not empty appends the span of
    the matched region. *)
Lemma infix_step_emits s pos0 st m :
  infix_inv pos0 st → ix_offset st ≤ m_start m → within s m →
  m_start m < m_end m →
  plain (pos0 + m_start m) (pos0 + m_end m - 1)
  ∈ ix_metas (infix_step s st m).
Proof.
  intros Hinv Hlo (Hs0 & Hse & Hen) Hlt.
  assert (H0 : 0 ≤ ix_offset st) by apply Hinv.
  pose proof (len_slice s (ix_offset st) (m_start m)) as L1.
  pose proof (len_slice s (m_start m) (m_end m)) as L2.
  rewrite !clip_id in L1, L2 by lia.
  apply (emit_piece_at _ _
           (slice s (Some (ix_offset st)) (Some (m_start m)))) in Hinv.
  destruct Hinv as (_ & Hpos & _).
  unfold infix_step; simpl.
  set (st1 := emit_piece (slice s (Some (ix_offset st)) (Some (m_start m)))
                         st) in *.
  unfold emit_piece at 1.
  assert (E : nonempty (slice s (Some (m_start m)) (Some (m_end m))) = true).
  { apply nonempty_len. lia. }
  rewrite E. simpl. apply elem_of_app. right. apply list_elem_of_singleton.
  f_equal; [lia|]. f_equal. lia.
Qed.

Lemma infix_loop_emits s pos0 ms : ∀ st m,
  infix_inv pos0 st → ix_offset st ≤ len s →
  ordered (ix_offset st) ms → Forall (within s) ms →
  m ∈ ms → m_start m < m_end m →
  plain (pos0 + m_start m) (pos0 + m_end m - 1)
  ∈ ix_metas (infix_loop s st ms).
Proof.
  induction ms as [|m0 ms IH]; intros st m Hinv Hlen Hord Hin Hm Hlt;
    [by apply elem_of_nil in Hm|].
  destruct Hord as (Hlo & Hse & Hord).
  apply Forall_cons in Hin as [Hm0 Hin].
  destruct (infix_step_inv s pos0 st m0 Hinv Hlo Hm0) as [Hinv' Hoff].
  simpl. apply elem_of_cons in Hm as [-> | Hm].
  - destruct (infix_loop_grows s ms (infix_step s st m0)) as [more ->].
    apply elem_of_app. left. by apply infix_step_emits.
  - apply IH; try done; rewrite Hoff; try done; apply Hm0.
Qed.

(** X10: when the infix matches of a string are ordered and lie inside it,
    every match that is not empty is a span of its own in the result of
    the infix splitter: the span of exactly the matched region, shifted by
    the position of the string in the text. *)
Theorem infix_match_is_span (s : str) pos ms m :
  ordered 0 ms → Forall (within s) ms → m ∈ ms → m_start m < m_end m →
  plain (pos + m_start m) (pos + m_end m - 1) ∈ infix_spans s pos ms.
Proof.
  intros Hord Hin Hm Hlt. unfold infix_spans.
  destruct (infix_rest_grows s (infix_loop s (mkInfix 0 pos 0 []) ms))
    as [more ->].
  apply elem_of_app. left. apply infix_loop_emits; try done.
  - unfold infix_inv, infix_at; simpl.
    repeat split; try lia; try done. constructor.
  - simpl. apply len_nonneg.
Qed.

Lemma infix_match_is_span_witness :
  plain (7 + 4) (7 + 5 - 1)
  ∈ infix_spans (py "love-apples") 7 (hyphens 0 (py "love-apples")).
Proof.
  apply (infix_match_is_span (py "love-apples") 7
           (hyphens 0 (py "love-apples")) (mkMatch 4 5)).
  - vm_compute. repeat split; discriminate.
  - vm_compute. repeat constructor; discriminate.
  - vm_compute. apply list_elem_of_here.
  - simpl. lia.
Defined.

(** ** The start of the text left after the infix matches *)

Lemma infix_loop_empty_at_start s ms : ∀ st,
  ix_offset st = 0 → Forall (fun m => m_start m = 0 ∧ m_end m = 0) ms →
  infix_loop s st ms = st.
Proof.
  induction ms as [|m ms IH]; intros st Ho Hall; simpl; [done|].
  apply Forall_cons in Hall as [[Hs He] Hall].
  rewrite infix_step_empty_at_offset by lia. by apply IH.
Qed.

(** X11: when all infix matches of a run are the empty match at its start
    (as for a pattern that is a look-ahead or an anchor), on which no
    prefix, suffix or exception applies, the single span of the run starts
    at 1 and ends at the length of the run, wherever the run starts in the
    text: the block after the loop of [_get_infix_token_meta] takes its
    position from [end_pos], which is still 0. *)
Theorem empty_infix_at_start_moves_span tk fuel (s : str) tm doc :
  s ≠ [] → find_prefix tk s = 0 → find_suffix tk s = 0 →
  special_cases tk !! s = None →
  find_infix tk s ≠ [] →
  Forall (fun m => m_start m = 0 ∧ m_end m = 0) (find_infix tk s) →
  _tokenize tk (S fuel) s tm doc
  = Ret (doc ++ [mkTokenMeta 1 (Some (len s)) (space_after tm) false]).
Proof.
  intros Hs Hp Hf Hk Hi Hall. unfold _tokenize.
  rewrite split_affixes_unfold by done. simpl. rewrite Hp, Hf. simpl.
  unfold resolve. simpl.
  rewrite (proj2 (in_special_false tk s) Hk).
  rewrite (proj2 (nonempty_true_iff _) Hi). simpl.
  rewrite (attach_tokens_snoc doc _ [] (plain 1 (len s))).
  - reflexivity.
  - unfold run_spans, _get_infix_token_meta, infix_spans. simpl.
    rewrite infix_loop_empty_at_start by done.
    unfold infix_rest. simpl. rewrite slice_all.
    rewrite (proj2 (nonempty_true_iff s) Hs). simpl.
    change (reverse (@nil TokenMeta)) with (@nil TokenMeta).
    f_equal. unfold plain. f_equal. f_equal. lia.
Qed.

Lemma empty_infix_at_start_moves_span_witness :
  _tokenize (mkTokenizer None None (Some (fun _ => [mkMatch 0 0])) ∅) 1
            (py "ab") (mkTokenMeta 5 (Some 6) true false) [plain 0 3]
  = Ret ([plain 0 3] ++ [mkTokenMeta 1 (Some (len (py "ab"))) true false]).
Proof.
  apply (empty_infix_at_start_moves_span
           (mkTokenizer None None (Some (fun _ => [mkMatch 0 0])) ∅) 0
           (py "ab") (mkTokenMeta 5 (Some 6) true false) [plain 0 3]).
  - discriminate.
  - reflexivity.
  - reflexivity.
  - reflexivity.
  - discriminate.
  - repeat constructor.
Defined.

(** ** The substring and its position *)

Lemma slice_of_slice_from {A} (text : list A) a b k :
  0 ≤ a → a ≤ b → b ≤ len text → 0 ≤ k → k ≤ b - a →
  slice (slice text (Some a) (Some b)) (Some k) None
  = slice text (Some (a + k)) (Some b).
Proof.
  intros Ha Hab Hb Hk Hkb.
  rewrite slice_from_inside; [|done|].
  2:{ rewrite len_slice, !clip_id by lia. lia. }
  rewrite !slice_inside by lia.
  rewrite !take_drop_commute, drop_drop. f_equal; [lia|]. f_equal. lia.
Qed.

Lemma slice_of_slice_to {A} (text : list A) a b k :
  0 ≤ a → a ≤ b → b ≤ len text → 0 < k → k ≤ b - a →
  slice (slice text (Some a) (Some b)) None (Some (- k))
  = slice text (Some a) (Some (b - k)).
Proof.
  intros Ha Hab Hb Hk Hkb.
  assert (Hl : len (slice text (Some a) (Some b)) = b - a).
  { rewrite len_slice, !clip_id by lia. lia. }
  assert (Hc : clip (b - a) (- k) = b - a - k).
  { unfold clip. destruct (- k <? 0) eqn:E; lia. }
  unfold slice at 1. cbv zeta. rewrite Hl, Hc.
  change (Z.to_nat 0) with 0%nat. rewrite drop_0, !slice_inside by lia.
  rewrite take_take. f_equal. lia.
Qed.

Lemma strip_prefix_sync tk text p0 b st :
  search_ok (prefix_search tk) → 0 ≤ p0 → b ≤ len text →
  in_sync text p0 b st → in_sync text p0 b (strip_prefix tk st).
Proof.
  intros Hok H0 Hb (Heq & Hlo & Hhi).
  pose proof (strip_prefix_len tk st Hok) as Hlen.
  destruct (find_prefix_range tk (af_substring st) Hok) as [Hp0 Hpn].
  pose proof (len_nonneg (af_substring st)) as Hn.
  revert Hlen. unfold strip_prefix, _get_prefix_token_meta.
  destruct (truthy (find_prefix tk (af_substring st))); [|by intros _].
  destruct (find_prefix tk (af_substring st) =? 0) eqn:E0; simpl;
    [by intros _|].
  intros Hlen. unfold in_sync; simpl. split; [|lia].
  rewrite Hlen. rewrite Heq at 1.
  rewrite slice_of_slice_from by lia. f_equal; f_equal; lia.
Qed.

Lemma strip_suffix_sync tk text p0 b st :
  search_ok (suffix_search tk) → 0 ≤ p0 → b ≤ len text →
  in_sync text p0 b st → in_sync text p0 b (strip_suffix tk st).
Proof.
  intros Hok H0 Hb (Heq & Hlo & Hhi).
  pose proof (strip_suffix_len tk st Hok) as Hlen.
  destruct (find_suffix_range tk (af_substring st) Hok) as [Hp0 Hpn].
  pose proof (len_nonneg (af_substring st)) as Hn.
  revert Hlen. unfold strip_suffix, _get_suffix_token_meta.
  destruct (truthy (find_suffix tk (af_substring st))) eqn:Et; [|by intros _].
  apply truthy_true in Et.
  destruct (find_suffix tk (af_substring st) =? 0) eqn:E0; simpl;
    [by intros _|].
  intros Hlen. unfold in_sync; simpl. split; [|lia].
  rewrite Hlen. rewrite Heq at 1.
  rewrite slice_of_slice_to by lia. f_equal; f_equal; lia.
Qed.

(** X12: when the prefix and suffix matches lie inside the searched string,
    the substring and the position of the affix loop stay in step: started
    on the run [text[p0:b]] at position [p0], the loop ends with a
    substring that is the text from its position on, inside the run; so
    the exception table and the infix matcher are given the very characters
    the spans made afterwards denote. *)
Theorem affix_loop_in_sync tk fuel (text : str) p0 b st :
  search_ok (prefix_search tk) → search_ok (suffix_search tk) →
  0 ≤ p0 → p0 ≤ b → b ≤ len text →
  affix_loop tk fuel (mkAffix (slice text (Some p0) (Some b)) p0 [] [])
  = Ret st →
  af_substring st
  = slice text (Some (af_pos st)) (Some (af_pos st + len (af_substring st)))
  ∧ p0 ≤ af_pos st
  ∧ af_pos st + len (af_substring st) ≤ b.
Proof.
  intros Hpre Hsuf H0 Hle Hb Hloop.
  apply (affix_loop_keeps tk (in_sync text p0 b)) with (4 := Hloop).
  - intros st0. by apply strip_prefix_sync.
  - intros st0. by apply strip_suffix_sync.
  - assert (Hl : len (slice text (Some p0) (Some b)) = b - p0).
    { rewrite len_slice, !clip_id by lia. lia. }
    unfold in_sync; simpl. rewrite Hl.
    split; [f_equal; f_equal; lia | lia].
Qed.

Lemma affix_loop_in_sync_witness :
  af_substring (mkAffix (py "a-b") 4 [plain 2 2; plain 3 3] [plain 7 7])
  = slice (py "x ((a-b) y") (Some 4) (Some (4 + len (py "a-b")))
  ∧ 2 ≤ 4 ∧ 4 + len (py "a-b") ≤ 8.
Proof.
  apply (affix_loop_in_sync demo 9 (py "x ((a-b) y") 2 8
           (mkAffix (py "a-b") 4 [plain 2 2; plain 3 3] [plain 7 7])).
  - exact search_open_ok.
  - exact (wf_suffix demo demo_wf).
  - lia.
  - lia.
  - vm_compute. discriminate.
  - vm_compute. reflexivity.
Defined.

(** ** The attribute ids of [attrs.py] *)

(** X13: the assignment of [class Attributes] binds as many names as
    [range(69)] has values, so the class body does not raise; no name is
    bound twice, every name gets the id of its place in the list, and
    every [FlagN] has the id N its name says. *)
Theorem attribute_ids :
  ∃ table, Attributes = Some table
    ∧ size table = 69%nat
    ∧ (∀ i name, attribute_names !! i = Some name →
                 table !! name = Some (Z.of_nat i))
    ∧ Forall (fun k : nat => table !! ("Flag" +:+ pretty k)%string
                             = Some (Z.of_nat k)) (seq 28 41).
Proof.
  exists (bind_names attribute_names (range 69)).
  split.
  { unfold Attributes, unpack.
    destruct (decide _) as [_ | Hn]; [reflexivity|].
    exfalso. apply Hn. reflexivity. }
  split; [refine (bool_decide_unpack _ _); vm_compute; exact I|]. split.
  - assert (Hall : Forall (fun p : nat * string =>
                     bind_names attribute_names (range 69) !! p.2
                     = Some (Z.of_nat p.1))
                     (imap pair attribute_names)).
    { refine (bool_decide_unpack _ _). vm_compute. exact I. }
    intros i name Hi. rewrite Forall_lookup in Hall.
    apply (Hall i (i, name)). by rewrite list_lookup_imap, Hi.
  - refine (bool_decide_unpack _ _). vm_compute. exact I.
Qed.

(** ** Spans inside the text *)

Lemma covers_bounds text a l b :
  covers (len text) a l b → b ≤ len text →
  Forall (fun t => a ≤ start_pos t
                   ∧ start_pos t ≤ effective_end text t + 1
                   ∧ effective_end text t < b) l.
Proof.
  induction 1 as [a | a t e l b Hs He Hle Hl IH | a t Hs He Hle];
    intros Hb.
  - constructor.
  - pose proof (covers_le _ _ _ _ Hl) as Hmono.
    pose proof (int_range (space_after t)) as Hint.
    constructor.
    + unfold effective_end. rewrite He. lia.
    + eapply Forall_impl; [exact (IH Hb)|]. simpl. intros u (? & ? & ?).
      repeat split; try done; lia.
  - constructor; [|constructor]. unfold effective_end. rewrite He. lia.
Qed.

(** X14: for a well-formed configuration the positions of every span are
    indices of the text: the start is not negative, the end (the last index
    for the open end) is before the length of the text, and the start is at
    most one past the end. *)
Theorem spans_inside_text tk fuel (text : str) :
  wf_config tk → text ≠ [] → (length text < fuel)%nat →
  ∃ doc, call tk fuel text = Ret doc
         ∧ ∀ t, t ∈ doc →
                0 ≤ start_pos t
                ∧ start_pos t ≤ effective_end text t + 1
                ∧ effective_end text t < len text.
Proof.
  intros Hwf Hne Hfuel.
  destruct (call_ok tk fuel text Hwf (fuel_enough _ _ Hfuel) Hne)
    as (doc & Hcall & Hcov & _).
  exists doc. split; [done|]. intros t Ht.
  pose proof (covers_bounds text 0 doc (len text) Hcov (Z.le_refl _)) as Hall.
  rewrite Forall_forall in Hall. by apply Hall.
Qed.

Lemma spans_inside_text_witness :
  ∃ doc, call demo 30 (py " (I don't  love-apples) ") = Ret doc
         ∧ ∀ t, t ∈ doc →
                0 ≤ start_pos t
                ∧ start_pos t
                  ≤ effective_end (py " (I don't  love-apples) ") t + 1
                ∧ effective_end (py " (I don't  love-apples) ") t
                  < len (py " (I don't  love-apples) ").
Proof.
  apply (spans_inside_text demo 30 (py " (I don't  love-apples) ") demo_wf).
  - discriminate.
  - vm_compute. lia.
Defined.

(** * C10: the fix-up of the last span *)

(** Something of the run is left or was made into a span. *)
Lemma strip_prefix_some tk st :
  af_prefixes st ≠ [] ∨ af_suffixes st ≠ [] ∨ af_substring st ≠ [] →
  af_prefixes (strip_prefix tk st) ≠ []
  ∨ af_suffixes (strip_prefix tk st) ≠ []
  ∨ af_substring (strip_prefix tk st) ≠ [].
Proof.
  intros H. unfold strip_prefix, _get_prefix_token_meta.
  destruct (truthy (find_prefix tk (af_substring st))) eqn:Et; [|done].
  apply truthy_true in Et.
  destruct (find_prefix tk (af_substring st) =? 0) eqn:E0; [lia|].
  simpl. left. intros Habs. by apply app_eq_nil in Habs as [_ ?].
Qed.

Lemma strip_suffix_some tk st :
  af_prefixes st ≠ [] ∨ af_suffixes st ≠ [] ∨ af_substring st ≠ [] →
  af_prefixes (strip_suffix tk st) ≠ []
  ∨ af_suffixes (strip_suffix tk st) ≠ []
  ∨ af_substring (strip_suffix tk st) ≠ [].
Proof.
  intros H. unfold strip_suffix, _get_suffix_token_meta.
  destruct (truthy (find_suffix tk (af_substring st))) eqn:Et; [|done].
  apply truthy_true in Et.
  destruct (find_suffix tk (af_substring st) =? 0) eqn:E0; [lia|].
  simpl. right. left. intros Habs. by apply app_eq_nil in Habs as [_ ?].
Qed.

Lemma resolve_some tk st sp :
  entries_nonempty tk →
  af_prefixes st ≠ [] ∨ af_suffixes st ≠ [] ∨ af_substring st ≠ [] →
  resolve tk st = Ret sp → run_spans sp ≠ [].
Proof.
  intros Hent H Hres.
  assert (Hsame : sp_prefixes sp = af_prefixes st
                  ∧ sp_suffixes sp = af_suffixes st).
  { revert Hres. unfold resolve.
    destruct (in_special tk (af_substring st)).
    - unfold _get_special_cases_token_meta.
      destruct (special_cases tk !! af_substring st); [|done].
      simpl. intros Hr. by inversion Hr.
    - destruct (nonempty (find_infix tk (af_substring st))); simpl;
        intros Hr; by inversion Hr. }
  destruct Hsame as [Hp Hs]. unfold run_spans. rewrite Hp, Hs.
  destruct H as [H | [H | H] ].
  - intros Habs. by apply app_eq_nil in Habs as [? _].
  - intros Habs. rewrite !app_assoc in Habs.
    apply app_eq_nil in Habs as [_ Habs].
    apply (f_equal length) in Habs. rewrite length_reverse in Habs.
    by destruct (af_suffixes st).
  - revert Hres. unfold resolve.
    destruct (in_special tk (af_substring st)) eqn:Ek.
    + apply in_special_true in Ek as [orths Ho].
      unfold _get_special_cases_token_meta. rewrite Ho. simpl.
      intros Hr. inversion Hr; subst sp. simpl.
      pose proof (Hent _ _ Ho) as Hne. destruct orths as [|o orths]; [done|].
      simpl. intros Habs. apply app_eq_nil in Habs as [_ Habs]. done.
    + destruct (nonempty (find_infix tk (af_substring st))); simpl;
        intros Hr; inversion Hr; subst sp; simpl.
      * pose proof (infix_spans_nonempty (af_substring st) (af_pos st)
                      (find_infix tk (af_substring st)) H) as Hi.
        intros Habs. apply app_eq_nil in Habs as [_ Habs].
        unfold _get_infix_token_meta in Habs.
        apply app_eq_nil in Habs as [? _]. done.
      * unfold core_span.
        rewrite (proj2 (nonempty_true_iff (af_substring st)) H). simpl.
        intros Habs. apply app_eq_nil in Habs as [_ Habs]. done.
Qed.

(** Every run that is not empty contributes a span when no exception
    entry is the empty list. *)
Lemma run_contributes_span tk fuel (s : str) p0 sp :
  entries_nonempty tk → s ≠ [] →
  _split_affixes tk fuel s p0 = Ret sp → run_spans sp ≠ [].
Proof.
  intros Hent Hs. rewrite split_affixes_unfold by done. intros H.
  apply bind_ret_inv in H as (st & Hloop & Hres).
  eapply resolve_some; [done | | exact Hres].
  eapply (affix_loop_keeps tk
            (fun st => af_prefixes st ≠ [] ∨ af_suffixes st ≠ []
                       ∨ af_substring st ≠ []));
    [apply strip_prefix_some | apply strip_suffix_some | | exact Hloop].
  simpl. by right; right.
Qed.

Lemma demo_entries : entries_nonempty demo.
Proof.
  intros s orths Hs. simpl in Hs.
  apply lookup_insert_Some in Hs as [[<- <-] | [_ Hs] ]; [done|].
  by apply lookup_singleton_Some in Hs as [<- <-].
Qed.

(** C10, as stated, fails: the entry of ["x"] is the empty list, so the run
    ["x"] of the text ["a x"] contributes no span, and the fix-up pops the
    span of the run ["a"], appended before, and unsets its [space_after]. *)
Lemma C10_fix_up_rewrites_earlier_span :
  special_cases empty_entry !! py "x" = Some []
  ∧ _tokenize empty_entry 1 (py "a") (mkTokenMeta 0 (Some 0) true false) []
    = Ret [mkTokenMeta 0 (Some 0) true false]
  ∧ _tokenize empty_entry 1 (py "x") (mkTokenMeta 2 None false false)
              [mkTokenMeta 0 (Some 0) true false]
    = Ret [mkTokenMeta 0 (Some 0) false false]
  ∧ call empty_entry 4 (py "a x") = Ret [mkTokenMeta 0 (Some 0) false false].
Proof. repeat split; vm_compute; reflexivity. Qed.

(** C10, amended: for every run that is not empty, when the prefix and
    suffix matches lie inside the searched string and no entry of the
    exception table is the empty list, the run contributes at least one
    span, and [_tokenize] returns the document it was given, unchanged,
    followed by the spans of the run in their order, of which the last one
    alone is changed, in its [space_after] alone: it becomes the
    [space_after] the driver observed for the run, while its [start_pos],
    [end_pos] and [is_space] stay. *)
Theorem tokenize_fix_up_frame tk fuel (s : str) tm doc :
  search_ok (prefix_search tk) → search_ok (suffix_search tk) →
  entries_nonempty tk → s ≠ [] → (length s < fuel)%nat →
  ∃ sp front t t',
    _split_affixes tk fuel s (start_pos tm) = Ret sp
    ∧ run_spans sp = front ++ [t]
    ∧ _tokenize tk fuel s tm doc = Ret (doc ++ front ++ [t'])
    ∧ space_after t' = space_after tm
    ∧ start_pos t' = start_pos t
    ∧ end_pos t' = end_pos t
    ∧ is_space t' = is_space t.
Proof.
  intros Hpre Hsuf Hent Hs Hfuel.
  destruct (affix_loop_total tk Hpre Hsuf fuel
              (mkAffix s (start_pos tm) [] []) (fuel_enough _ _ Hfuel))
    as (st & Hloop & _).
  destruct (resolve_returns tk st) as [sp Hres].
  assert (Hsp : _split_affixes tk fuel s (start_pos tm) = Ret sp).
  { rewrite split_affixes_unfold by done. rewrite Hloop. simpl. done. }
  pose proof (run_contributes_span tk fuel s _ sp Hent Hs Hsp) as Hne.
  destruct (tokenize_fixes_last_span tk fuel s tm doc sp Hsp Hne)
    as (front & t & t' & H).
  exists sp, front, t, t'. split; [done | exact H].
Qed.

Lemma tokenize_fix_up_frame_witness :
  ∃ sp front t t',
    _split_affixes demo 9 (py "(a-b)") 4 = Ret sp
    ∧ run_spans sp = front ++ [t]
    ∧ _tokenize demo 9 (py "(a-b)") (mkTokenMeta 4 (Some 8) true false)
                [plain 0 2]
      = Ret ([plain 0 2] ++ front ++ [t'])
    ∧ space_after t' = true
    ∧ start_pos t' = start_pos t
    ∧ end_pos t' = end_pos t
    ∧ is_space t' = is_space t.
Proof.
  apply (tokenize_fix_up_frame demo 9 (py "(a-b)")
           (mkTokenMeta 4 (Some 8) true false) [plain 0 2]).
  - exact search_open_ok.
  - exact (wf_suffix demo demo_wf).
  - exact demo_entries.
  - discriminate.
  - vm_compute. lia.
Defined.
